(** * Bloom: NIP-46 session provider and session storage adapters

    A shallow embedding of
    - [Nip46Provider] (the React context that owns the reconnection loop and
      the signer adoption effect), and
    - [storage.ts] (the localStorage, in-memory and IndexedDB adapters),
    together with the properties of them that the specification states. *)

From stdpp Require Import base gmap strings list.
From Stdlib Require Import ZArith Lia.

Local Open Scope Z_scope.
Set Warnings "-register-all".

(** * Part I: the embedding *)

(** ** JavaScript values and control flow as the code uses them *)

Module Js.

(** Truthiness of a value of type [string | null | undefined]: the empty
    string is falsy, like null and undefined. *)
Definition truthy_string (v : option string) : bool :=
  match v with
  | Some s => negb (String.eqb s "")
  | None => false
  end.

(** Truthiness of a value of type [number | undefined]: zero is falsy. *)
Definition truthy_number (v : option Z) : bool :=
  match v with
  | Some n => negb (n =? 0)
  | None => false
  end.

(** A thrown value: a [DOMException] with its name and legacy code, or any
    other error with its message. *)
Inductive thrown :=
| DOMException (name : string) (code : Z)
| Error (message : string).

(** How a synchronous call ends. *)
Inductive completion (A : Type) :=
| Normal (a : A)
| Throw (e : thrown).
Arguments Normal {A} a.
Arguments Throw {A} e.

(** How a promise ends: it resolves, it rejects, or it never settles. *)
Inductive outcome (A : Type) :=
| Resolved (a : A)
| Rejected (e : thrown)
| Pending.
Arguments Resolved {A} a.
Arguments Rejected {A} e.
Arguments Pending {A}.

(** [await]: the continuation of a promise runs only once it resolves. *)
Definition await {A B} (m : outcome A) (k : A -> outcome B) : outcome B :=
  match m with
  | Resolved a => k a
  | Rejected e => Rejected e
  | Pending => Pending
  end.

#[global] Instance outcome_ret : MRet outcome := fun A a => Resolved a.
#[global] Instance outcome_bind : MBind outcome := fun A B k m => await m k.

(** A synchronous call inside an async function: a throw rejects. *)
Definition call {A} (c : completion A) : outcome A :=
  match c with
  | Normal a => Resolved a
  | Throw e => Rejected e
  end.

(** [try { body } catch (error) { handler }] around awaited code. *)
Definition try_catch {A} (body : outcome A) (handler : thrown -> outcome A) : outcome A :=
  match body with
  | Rejected e => handler e
  | settled => settled
  end.

(** The promise settles without a rejection reaching the caller. *)
Definition never_rejects {A} (o : outcome A) : Prop :=
  match o with
  | Rejected _ => False
  | _ => True
  end.

End Js.

(** ** The session provider (Nip46Provider) *)

Module Nip46.

(** Modelled from the spec: the session record type, whose declaration
    (session.ts) is not among the sources. The fields are the ones the
    provider reads; an optional field that holds null or undefined is
    [None]. Time stamps are milliseconds, as [Date.now()] gives them. *)
Inductive SessionStatus := pending | active | revoked.

Record Session := {
  id : string;
  status : SessionStatus;
  remoteSignerPubkey : option string;
  userPubkey : option string;
  lastError : option string;
  lastSeenAt : option Z;
  createdAt : Z;
  updatedAt : Z;
}.

Record SessionSnapshot := {
  sessions : list Session;
  activeSessionId : option string;
}.

Definition defaultSnapshot : SessionSnapshot :=
  {| sessions := []; activeSessionId := None |}.

(** [session.status === "active"] *)
Definition is_active (st : SessionStatus) : bool :=
  match st with active => true | _ => false end.

(** What the effects test before they do anything: the lazily loaded
    module, the NDK instance, the two readiness flags, the service and the
    session manager. *)
Record Deps := {
  mod_loaded : bool;
  ndk_present : bool;
  ready : bool;
  transportReady : bool;
  service_present : bool;
  sessionManager_present : bool;
}.

(** The refs of the provider that the two effects share. *)
Record Refs := {
  activeSessionRef : option string;
  reconnectTrackerRef : gset string;
  reconnectCooldownRef : gmap string Z;
}.

Definition initial_refs : Refs :=
  {| activeSessionRef := None; reconnectTrackerRef := ∅; reconnectCooldownRef := ∅ |}.

Definition RECONNECT_COOLDOWN_MS : Z := 60000.

(** The signer handed to [adoptSigner]: a delegated signer bound to one
    session id. *)
Inductive Signer := Nip46DelegatedSigner (sessionId : string).

(** The calls the effects make on the service and on the NDK context. *)
Inductive Call :=
| connectSession (sessionId : string)
| adoptSigner (signer : option Signer).

(** *** Signer adoption *)

(** The predicate handed to [snapshot.sessions.find]:
    [session.status === "active" && session.userPubkey && !session.lastError]. *)
Definition adoptable (session : Session) : bool :=
  is_active (status session)
  && Js.truthy_string (userPubkey session)
  && negb (Js.truthy_string (lastError session)).

(** [const candidate = snapshot.sessions.find(...)]: the first match in the
    order of the list. *)
Definition candidate (snapshot : SessionSnapshot) : option Session :=
  List.find adoptable (sessions snapshot).

Definition adoption_deps_ready (d : Deps) : bool :=
  mod_loaded d && ndk_present d && ready d && transportReady d
  && service_present d && sessionManager_present d.

Definition set_activeSessionRef (v : option string) (r : Refs) : Refs :=
  {| activeSessionRef := v;
     reconnectTrackerRef := reconnectTrackerRef r;
     reconnectCooldownRef := reconnectCooldownRef r |}.

(** The adoption effect: one run, from the guard on the dependencies to the
    call of [adoptSigner]. *)
Definition adoption_effect (d : Deps) (snapshot : SessionSnapshot) (r : Refs)
  : Refs * list Call :=
  if negb (adoption_deps_ready d) then (r, [])
  else
    let current := activeSessionRef r in
    match candidate snapshot with
    | None =>
        if Js.truthy_string current
        then (set_activeSessionRef None r, [adoptSigner None])
        else (r, [])
    | Some c =>
        if bool_decide (Some (id c) = current) then (r, [])
        else (set_activeSessionRef (Some (id c)) r,
              [adoptSigner (Some (Nip46DelegatedSigner (id c)))])
    end.

(** The handler of a rejected [adoptSigner(signer)]: reset to allow a retry. *)
Definition adoption_rejected (r : Refs) : Refs :=
  set_activeSessionRef None r.

(** *** The reconnection loop *)

Definition reconnect_deps_ready (d : Deps) : bool :=
  ready d && transportReady d && service_present d
  && sessionManager_present d && ndk_present d.

Definition shouldReconnect (activeAdoptedSessionId : option string) (now : Z)
  (session : Session) : bool :=
  bool_decide (activeAdoptedSessionId = Some (id session))
  || match lastSeenAt session with
     | Some seen => now - seen <=? RECONNECT_COOLDOWN_MS
     | None => false
     end.

(** [lastAttempt && now - lastAttempt < RECONNECT_COOLDOWN_MS] *)
Definition in_cooldown (lastAttempt : option Z) (now : Z) : bool :=
  Js.truthy_number lastAttempt
  && match lastAttempt with
     | Some t => now - t <? RECONNECT_COOLDOWN_MS
     | None => false
     end.

Definition start_attempt (sessionId : string) (now : Z) (r : Refs) : Refs :=
  {| activeSessionRef := activeSessionRef r;
     reconnectTrackerRef := {[sessionId]} ∪ reconnectTrackerRef r;
     reconnectCooldownRef := <[sessionId := now]> (reconnectCooldownRef r) |}.

(** The body of [snapshot.sessions.forEach(session => ...)]. *)
Definition reconnect_session (activeAdoptedSessionId : option string) (now : Z)
  (r : Refs) (session : Session) : Refs * list Call :=
  if negb (is_active (status session)) then (r, [])
  else if negb (Js.truthy_string (remoteSignerPubkey session)) then (r, [])
  else if Js.truthy_string (lastError session) then (r, [])
  else if negb (shouldReconnect activeAdoptedSessionId now session) then (r, [])
  else if bool_decide (id session ∈ reconnectTrackerRef r) then (r, [])
  else if in_cooldown (reconnectCooldownRef r !! id session) now then (r, [])
  else (start_attempt (id session) now r, [connectSession (id session)]).

Fixpoint reconnect_sessions (activeAdoptedSessionId : option string) (now : Z)
  (l : list Session) (r : Refs) : Refs * list Call :=
  match l with
  | [] => (r, [])
  | session :: rest =>
      let '(r1, calls1) := reconnect_session activeAdoptedSessionId now r session in
      let '(r2, calls2) := reconnect_sessions activeAdoptedSessionId now rest r1 in
      (r2, calls1 ++ calls2)
  end.

(** The reconnection effect: one run at time [now = Date.now()]. *)
Definition reconnect_effect (d : Deps) (now : Z) (snapshot : SessionSnapshot)
  (r : Refs) : Refs * list Call :=
  if negb (reconnect_deps_ready d) then (r, [])
  else reconnect_sessions (activeSessionRef r) now (sessions snapshot) r.

Definition tracker_delete (sessionId : string) (r : Refs) : Refs :=
  {| activeSessionRef := activeSessionRef r;
     reconnectTrackerRef := reconnectTrackerRef r ∖ {[sessionId]};
     reconnectCooldownRef := reconnectCooldownRef r |}.

(** The promise of [connectSession] settles: [.catch] deletes the id from
    the tracker when it rejected, and [.finally] deletes it either way. *)
Definition connect_settled (sessionId : string) (ok : bool) (r : Refs) : Refs :=
  tracker_delete sessionId (if ok then r else tracker_delete sessionId r).

(** *** The provider over time *)

Inductive Event :=
| ReconnectEffect (d : Deps) (now : Z) (snapshot : SessionSnapshot)
| ConnectSettled (sessionId : string) (ok : bool)
| AdoptionEffect (d : Deps) (snapshot : SessionSnapshot)
| AdoptionRejected.

Definition step (r : Refs) (e : Event) : Refs * list Call :=
  match e with
  | ReconnectEffect d now snapshot => reconnect_effect d now snapshot r
  | ConnectSettled sessionId ok => (connect_settled sessionId ok r, [])
  | AdoptionEffect d snapshot => adoption_effect d snapshot r
  | AdoptionRejected => (adoption_rejected r, [])
  end.

Fixpoint run (r : Refs) (events : list Event) : Refs * list Call :=
  match events with
  | [] => (r, [])
  | e :: rest =>
      let '(r1, calls1) := step r e in
      let '(r2, calls2) := run r1 rest in
      (r2, calls1 ++ calls2)
  end.

(** The cooldown map holds [t0] as the time of the last attempt for the
    session [sid]. *)
Definition cooling (sid : string) (t0 : Z) (r : Refs) : Prop :=
  reconnectCooldownRef r !! sid = Some t0.

(** Every run of the loop among the events happens less than the cooldown
    after [t0]. *)
Definition within_cooldown (t0 : Z) (events : list Event) : Prop :=
  forall d now snapshot,
    In (ReconnectEffect d now snapshot) events -> now - t0 < RECONNECT_COOLDOWN_MS.

(** Session ids are not empty. *)
Definition ids_nonempty (snapshot : SessionSnapshot) : Prop :=
  Forall (fun s => id s <> ""%string) (sessions snapshot).

(** The ref holds null or an id that is not empty. *)
Definition ref_well_formed (r : Refs) : Prop :=
  forall current, activeSessionRef r = Some current -> current <> ""%string.

(** The signer that the ref of the provider stands for. *)
Definition signer_of_ref (r : Refs) : option Signer :=
  Nip46DelegatedSigner <$> activeSessionRef r.

(** *** The conditions of the effects, field by field *)

(** A string field is set when it holds a string that is not empty: this is
    what the truthiness tests of the code accept. *)
Definition is_set (v : option string) : Prop :=
  exists k, v = Some k /\ k <> ""%string.

(** A string field passes the test [!field] when it holds null, undefined or
    the empty string. *)
Definition is_blank (v : option string) : Prop :=
  v = None \/ v = Some ""%string.

(** The sessions that [find] accepts in the adoption effect. *)
Definition adoptable_conditions (s : Session) : Prop :=
  status s = active /\ is_set (userPubkey s) /\ is_blank (lastError s).

(** The sessions that the reconnection loop goes on with, before it looks at
    the tracker and the cooldown. *)
Definition reconnect_conditions (activeAdoptedSessionId : option string) (now : Z)
  (s : Session) : Prop :=
  status s = active /\
  is_set (remoteSignerPubkey s) /\
  is_blank (lastError s) /\
  (activeAdoptedSessionId = Some (id s) \/
   exists seen, lastSeenAt s = Some seen /\ now - seen <= RECONNECT_COOLDOWN_MS).

(** *** The statements of the specification, in its words *)

(** A session qualifies for adoption: status active, a user public key that
    is not nil, and a nil last error. *)
Definition qualifies (s : Session) : Prop :=
  status s = active /\ userPubkey s <> None /\ lastError s = None.

(** The chosen session is the most recently updated one among those that
    qualify. *)
Definition most_recently_updated (snapshot : SessionSnapshot) (c : Session) : Prop :=
  In c (sessions snapshot) /\ qualifies c /\
  forall s, In s (sessions snapshot) -> qualifies s -> updatedAt s <= updatedAt c.

Definition adopts_most_recently_updated (snapshot : SessionSnapshot) : Prop :=
  forall c, candidate snapshot = Some c -> most_recently_updated snapshot c.

(** A session is a reconnection candidate: status active, remote signer key
    set, nil last error, and adopted or seen within the window. *)
Definition reconnection_candidate (activeAdoptedSessionId : option string) (now : Z)
  (s : Session) : Prop :=
  status s = active /\
  remoteSignerPubkey s <> None /\
  lastError s = None /\
  (activeAdoptedSessionId = Some (id s) \/
   exists seen, lastSeenAt s = Some seen /\ now - seen <= RECONNECT_COOLDOWN_MS).

Definition attempts_only_candidates (d : Deps) (now : Z) (snapshot : SessionSnapshot)
  (r : Refs) : Prop :=
  forall sessionId,
    In (connectSession sessionId) (snd (reconnect_effect d now snapshot r)) ->
    exists s, In s (sessions snapshot) /\ id s = sessionId /\
              reconnection_candidate (activeSessionRef r) now s.

(** A successful connect clears the cooldown: when the attempt issued for
    [s] at time [t0] from the refs [r] has succeeded, the session is
    attempted again by a turn of the loop at any later time [now] at which
    it has the conditions of the loop. *)
Definition success_clears_cooldown (activeAdoptedSessionId : option string)
  (t0 now : Z) (r : Refs) (s : Session) : Prop :=
  forall r1,
    reconnect_session activeAdoptedSessionId t0 r s = (r1, [connectSession (id s)]) ->
    t0 <= now ->
    reconnect_conditions activeAdoptedSessionId now s ->
    snd (reconnect_session activeAdoptedSessionId now (connect_settled (id s) true r1) s)
    = [connectSession (id s)].

(** An update that only touches the [updatedAt] stamps of the sessions. *)
Definition restamp (f : Session -> Z) (s : Session) : Session :=
  {| id := id s; status := status s;
     remoteSignerPubkey := remoteSignerPubkey s; userPubkey := userPubkey s;
     lastError := lastError s; lastSeenAt := lastSeenAt s;
     createdAt := createdAt s; updatedAt := f s |}.

Definition restamp_snapshot (f : Session -> Z) (snapshot : SessionSnapshot) : SessionSnapshot :=
  {| sessions := map (restamp f) (sessions snapshot);
     activeSessionId := activeSessionId snapshot |}.

(** *** Scenarios *)

Definition all_ready : Deps :=
  {| mod_loaded := true; ndk_present := true; ready := true; transportReady := true;
     service_present := true; sessionManager_present := true |}.

(** Two sessions as in the scenario of the specification: both active, with
    distinct user keys and no error. *)
Definition S1 : Session :=
  {| id := "S1"; status := active;
     remoteSignerPubkey := Some "R1"%string; userPubkey := Some "U1"%string;
     lastError := None; lastSeenAt := Some 990000; createdAt := 1; updatedAt := 100 |}.

Definition S2 (stamp : Z) : Session :=
  {| id := "S2"; status := active;
     remoteSignerPubkey := Some "R2"%string; userPubkey := Some "U2"%string;
     lastError := None; lastSeenAt := None; createdAt := 2; updatedAt := stamp |}.

Definition two_sessions (stamp : Z) : SessionSnapshot :=
  {| sessions := [S1; S2 stamp]; activeSessionId := None |}.

Definition only_S1 : SessionSnapshot :=
  {| sessions := [S1]; activeSessionId := None |}.

(** A session whose last error is the empty string. *)
Definition S3 : Session :=
  {| id := "S3"; status := active;
     remoteSignerPubkey := Some "R3"%string; userPubkey := None;
     lastError := Some ""%string; lastSeenAt := Some 990000;
     createdAt := 3; updatedAt := 3 |}.

Definition only_S3 : SessionSnapshot :=
  {| sessions := [S3]; activeSessionId := None |}.

(** *** The transport used before the NDK instance exists *)

(** Modelled from the spec: the transport interface (its declaration is not
    among the sources): [publish] is asynchronous, [subscribe] returns the
    handle that unsubscribes. [World] is whatever the transport acts on. *)
Record TransportConfig (Envelope Filter World : Type) := {
  publish : Envelope -> World -> Js.outcome unit * World;
  subscribe : Filter -> (Envelope -> World -> World) -> World ->
              Js.completion (World -> Js.completion unit * World) * World;
}.
Arguments publish {Envelope Filter World} t.
Arguments subscribe {Envelope Filter World} t.

Definition missingTransport {Envelope Filter World : Type}
  : TransportConfig Envelope Filter World :=
  {| publish := fun _ w =>
       (Js.Rejected (Js.Error "NIP-46 transport is not configured"), w);
     subscribe := fun _ _ w =>
       (Js.Normal (fun w' => (Js.Normal tt, w')), w) |}.

End Nip46.

(** ** The signer of the NDK context (NdkContext.tsx) *)

Module NdkContext.
Import Nip46.

#[global] Instance Signer_eq_dec : EqDecision Signer.
Proof. solve_decision. Defined.

(** How a call of [adoptSigner] with a signer goes on after it has
    returned its promise: the promise of [ensureNdkConnection()] and the
    promise of [nextSigner.user()]. *)
Record adopt_env := {
  ensureNdkConnection : Js.outcome unit;
  user : Js.outcome unit;
}.

(** [adoptSigner(nextSigner)] is an async function: what it does before
    its first await happens during the call. With null there is no await:
    [instance.signer] and the [signer] state are cleared before the call
    returns. With a signer nothing is set before the first await. [signer]
    is the signer that the context holds; the helpers called on the way
    (fallback relays, the persisted preference) are taken to return. *)
Definition adoptSigner_call (nextSigner : option Signer) (signer : option Signer)
  : option Signer :=
  match nextSigner with
  | Some _ => signer
  | None => None
  end.

(** The rest of [adoptSigner(nextSigner)] for a signer, once the two awaits
    have settled: the signer is set after both, and the catch block
    rethrows with the signer left as it was. The result is how the promise
    of the call settles and the signer that the context holds then. *)
Definition adoptSigner_resume (nextSigner : Signer) (env : adopt_env)
  (signer : option Signer) : Js.outcome unit * option Signer :=
  match (_ ← ensureNdkConnection env; user env) with
  | Js.Resolved _ => (Js.Resolved tt, Some nextSigner)
  | Js.Rejected error => (Js.Rejected error, signer)
  | Js.Pending => (Js.Pending, signer)
  end.

(** The provider and the context together: the refs of the provider, the
    signer of the context, and the calls [adoptSigner(signer)] of the
    provider whose promise has not settled, oldest first. The provider is
    taken to be the only caller of [adoptSigner]. *)
Record World := {
  refs : Refs;
  signer : option Signer;
  adopting : list Signer;
}.

Definition initial_world : World :=
  {| refs := initial_refs; signer := None; adopting := [] |}.

(** A call made by an effect, as far as it goes before it returns. *)
Definition issue (w : World) (call : Call) : World :=
  match call with
  | Nip46.adoptSigner nextSigner =>
      {| refs := refs w;
         signer := adoptSigner_call nextSigner (signer w);
         adopting := match nextSigner with
                     | Some next => adopting w ++ [next]
                     | None => adopting w
                     end |}
  | connectSession _ => w
  end.

Fixpoint settle_one (next : Signer) (calls : list Signer) : list Signer :=
  match calls with
  | [] => []
  | s :: rest => if bool_decide (s = next) then rest else s :: settle_one next rest
  end.

Inductive WorldEvent :=
| AdoptionRun (d : Deps) (snapshot : SessionSnapshot)
| ReconnectRun (d : Deps) (now : Z) (snapshot : SessionSnapshot)
| ConnectDone (sessionId : string) (ok : bool)
| AdoptSettled (next : Signer) (env : adopt_env).

(** One event: a run of one of the two effects with the calls it makes, a
    connect that has settled, or a pending [adoptSigner(next)] whose awaits
    settle as [env] says. On success the [then] handler of the provider
    only logs; on a rejection its [catch] handler resets the ref. *)
Definition world_step (w : World) (e : WorldEvent) : World :=
  match e with
  | AdoptionRun d snapshot =>
      let '(r, calls) := adoption_effect d snapshot (refs w) in
      fold_left issue calls {| refs := r; signer := signer w; adopting := adopting w |}
  | ReconnectRun d now snapshot =>
      let '(r, calls) := reconnect_effect d now snapshot (refs w) in
      fold_left issue calls {| refs := r; signer := signer w; adopting := adopting w |}
  | ConnectDone sessionId ok =>
      {| refs := connect_settled sessionId ok (refs w);
         signer := signer w; adopting := adopting w |}
  | AdoptSettled next env =>
      if bool_decide (next ∈ adopting w) then
        match adoptSigner_resume next env (signer w) with
        | (Js.Resolved _, signer') =>
            {| refs := refs w; signer := signer';
               adopting := settle_one next (adopting w) |}
        | (Js.Rejected _, signer') =>
            {| refs := adoption_rejected (refs w); signer := signer';
               adopting := settle_one next (adopting w) |}
        | (Js.Pending, _) => w
        end
      else w
  end.

Definition world_run (w : World) (events : list WorldEvent) : World :=
  fold_left world_step events w.

(** Both awaits of a call resolve. *)
Definition completes (env : adopt_env) : Prop :=
  ensureNdkConnection env = Js.Resolved tt /\ user env = Js.Resolved tt.

(** The settling of a call, for a call of [adoptSigner] with a signer. *)
Definition settle_call (env : adopt_env) (call : Call) : list WorldEvent :=
  match call with
  | Nip46.adoptSigner (Some next) => [AdoptSettled next env]
  | Nip46.adoptSigner None | connectSession _ => []
  end.

(** A snapshot change whose call of [adoptSigner], if the adoption effect
    makes one, settles as [env] says before anything else happens. *)
Definition change (w : World) (c : Deps * SessionSnapshot * adopt_env) : World :=
  let '(d, snapshot, env) := c in
  world_run w
    (AdoptionRun d snapshot
     :: flat_map (settle_call env) (snd (adoption_effect d snapshot (refs w)))).

Definition changes (w : World) (cs : list (Deps * SessionSnapshot * adopt_env)) : World :=
  fold_left change cs w.

(** An earlier change in which the session ids are not empty and the call
    completes. *)
Definition orderly (c : Deps * SessionSnapshot * adopt_env) : Prop :=
  ids_nonempty (snd (fst c)) /\ completes (snd c).

(** No call is pending, and the context holds the signer of the session
    that the ref names, whose id is not empty. *)
Definition quiescent (w : World) : Prop :=
  adopting w = [] /\ signer w = signer_of_ref (refs w) /\ ref_well_formed (refs w).

(** *** The statement of the specification, in its words *)

(** When the candidate becomes absent while a session is adopted, the
    adopted signer is cleared exactly once: the run of the adoption effect
    makes the one call that clears it, and the context holds no signer
    afterwards. *)
Definition cleared_exactly_once (w : World) (d : Deps) (snapshot : SessionSnapshot)
  : Prop :=
  candidate snapshot = None ->
  signer w <> None ->
  snd (adoption_effect d snapshot (refs w)) = [Nip46.adoptSigner None]
  /\ signer (world_step w (AdoptionRun d snapshot)) = None.

(** *** Scenarios *)

Definition adopt_ok : adopt_env :=
  {| ensureNdkConnection := Js.Resolved tt; user := Js.Resolved tt |}.

(** [nextSigner.user()] rejects: the remote signer does not answer. *)
Definition adopt_fails : adopt_env :=
  {| ensureNdkConnection := Js.Resolved tt;
     user := Js.Rejected (Js.Error "Failed to adopt signer") |}.

Definition only_S2 : SessionSnapshot :=
  {| sessions := [S2 200]; activeSessionId := None |}.

(** S1 is adopted; then S2 becomes the candidate and its adoption is
    rejected. *)
Definition rejected_swap : list WorldEvent :=
  [AdoptionRun all_ready only_S1;
   AdoptSettled (Nip46DelegatedSigner "S1") adopt_ok;
   AdoptionRun all_ready only_S2;
   AdoptSettled (Nip46DelegatedSigner "S2") adopt_fails].

End NdkContext.

(** ** The storage adapters (storage.ts) *)

Module Storage.

(** A snapshot as the adapters see it at run time: a plain JSON value. A
    property that holds undefined is an absent key; numbers are the integers
    the code stores (time stamps). *)
Inductive json :=
| JNull
| JBool (b : bool)
| JNumber (n : Z)
| JString (s : string)
| JArray (items : list json)
| JObject (props : list (string * json)).

Definition STORAGE_KEY : string := "bloom.nip46.sessions.v1".

(** Truthiness of a parsed value. *)
Definition truthy (v : json) : bool :=
  match v with
  | JNull => false
  | JBool b => b
  | JNumber n => negb (n =? 0)
  | JString s => negb (String.eqb s "")
  | JArray _ | JObject _ => true
  end.

(** [typeof v === "object"]: objects, arrays and null. *)
Definition typeof_object (v : json) : bool :=
  match v with
  | JNull | JArray _ | JObject _ => true
  | _ => false
  end.

Fixpoint assoc (key : string) (props : list (string * json)) : option json :=
  match props with
  | [] => None
  | (k, v) :: rest => if String.eqb k key then Some v else assoc key rest
  end.

(** [v.key] on a value that is not null; [None] is undefined. *)
Definition get_prop (key : string) (v : json) : option json :=
  match v with
  | JObject props => assoc key props
  | _ => None
  end.

(** [Array.isArray(x)] *)
Definition isArray (x : option json) : bool :=
  match x with
  | Some (JArray _) => true
  | _ => false
  end.

(** The snapshot with the given sessions and active session id. *)
Definition mk_snapshot (sessions : list json) (activeSessionId : option string) : json :=
  JObject [("sessions"%string, JArray sessions);
           ("activeSessionId"%string,
            match activeSessionId with Some i => JString i | None => JNull end)].

Definition isQuotaExceededError (error : Js.thrown) : bool :=
  match error with
  | Js.DOMException name code =>
      String.eqb name "QuotaExceededError"
      || (code =? 22)
      || String.eqb name "NS_ERROR_DOM_QUOTA_REACHED"
  | Js.Error _ => false
  end.

(** [structuredClone] of a plain value: a copy built anew, node by node. *)
Fixpoint structuredClone (v : json) : json :=
  match v with
  | JArray items => JArray (map structuredClone items)
  | JObject props =>
      JObject (map (fun p => match p with (k, x) => (k, structuredClone x) end) props)
  | JNull => JNull
  | JBool b => JBool b
  | JNumber n => JNumber n
  | JString s => JString s
  end.

(** [JSON.parse(JSON.stringify(v))] of a plain value: the text is parsed back
    into a value built anew. (The text leaves out the properties that hold
    undefined, which a value of this type does not have: they are absent
    keys.) *)
Fixpoint json_roundtrip (v : json) : json :=
  match v with
  | JArray items => JArray (map json_roundtrip items)
  | JObject props =>
      JObject (map (fun p => match p with (k, x) => (k, json_roundtrip x) end) props)
  | JNull => JNull
  | JBool b => JBool b
  | JNumber n => JNumber n
  | JString s => JString s
  end.

(** [cloneSnapshot]; the flag is [typeof structuredClone === "function"]. *)
Definition cloneSnapshot (has_structuredClone : bool) (snapshot : json) : json :=
  if has_structuredClone then structuredClone snapshot
  else json_roundtrip snapshot.

(** *** LocalStorageAdapter *)

Module LocalStorageAdapter.

Record t := {
  blocked : bool;
  lastBlockedTime : Z;
}.

Definition init : t := {| blocked := false; lastBlockedTime := 0 |}.

Definition RETRY_INTERVAL_MS : Z := 60000.

(** What a call does to the world outside the adapter. *)
Inductive effect :=
| setItem (key value : string)
| warn (message : string).

(** What the browser answers during one [load]. *)
Record load_env := {
  load_window : bool;
  getItem : Js.completion (option string);
}.

(** What the browser answers during one [save]: whether [window] exists,
    [Date.now()] at the retry test, how [setItem] ends, and [Date.now()] in
    the handler of a quota error. *)
Record save_env := {
  save_window : bool;
  now : Z;
  setItem_throws : option Js.thrown;
  now_in_catch : Z;
}.

Section WithJSON.

Variable JSON_parse : string -> Js.completion json.
Variable JSON_stringify : json -> string.

Definition load_try (env : load_env) : Js.outcome (option json) :=
  raw ← Js.call (getItem env);
  match raw with
  | None => Js.Resolved None
  | Some text =>
      if negb (Js.truthy_string raw) then Js.Resolved None
      else
        parsed ← Js.call (JSON_parse text);
        if negb (truthy parsed) || negb (typeof_object parsed) then Js.Resolved None
        else if negb (isArray (get_prop "sessions" parsed)) then Js.Resolved None
        else Js.Resolved (Some parsed)
  end.

Definition load (env : load_env) : Js.outcome (option json) :=
  if negb (load_window env) then Js.Resolved None
  else Js.try_catch (load_try env) (fun error => Js.Resolved None).

(** The body of [try] in [save]. *)
Definition save_try (snapshot : json) (env : save_env) (a : t)
  : Js.outcome unit * t * list effect :=
  let write := setItem STORAGE_KEY (JSON_stringify snapshot) in
  match setItem_throws env with
  | Some error => (Js.Rejected error, a, [write])
  | None =>
      (Js.Resolved tt,
       (if lastBlockedTime a >? 0
        then {| blocked := blocked a; lastBlockedTime := 0 |}
        else a),
       [write])
  end.

(** The handler of [catch] in [save]. *)
Definition save_catch (error : Js.thrown) (env : save_env) (a : t)
  : Js.outcome unit * t * list effect :=
  if isQuotaExceededError error
  then (Js.Resolved tt,
        {| blocked := true; lastBlockedTime := now_in_catch env |},
        [warn "NIP-46 session persistence blocked due to storage quota. Will retry in 1 minute."])
  else (Js.Resolved tt, a, [warn "Failed to persist NIP-46 sessions"]).

Definition save (snapshot : json) (env : save_env) (a : t)
  : Js.outcome unit * t * list effect :=
  if negb (save_window env) then (Js.Resolved tt, a, [])
  else
    let a1 :=
      if blocked a && (now env - lastBlockedTime a >? RETRY_INTERVAL_MS)
      then {| blocked := false; lastBlockedTime := lastBlockedTime a |}
      else a in
    if blocked a1 then (Js.Resolved tt, a1, [])
    else
      match save_try snapshot env a1 with
      | (Js.Rejected error, a2, effects) =>
          let '(result, a3, effects') := save_catch error env a2 in
          (result, a3, effects ++ effects')
      | settled => settled
      end.

(** The storage writes among the effects of a call. *)
Definition is_write (e : effect) : bool :=
  match e with setItem _ _ => true | warn _ => false end.

Definition writes (effects : list effect) : list effect :=
  List.filter is_write effects.

(** A sequence of [save] calls, each with the answers of the browser. *)
Fixpoint saves (calls : list (json * save_env)) (a : t) : t * list effect :=
  match calls with
  | [] => (a, [])
  | (snapshot, env) :: rest =>
      let '(_, a1, effects1) := save snapshot env a in
      let '(a2, effects2) := saves rest a1 in
      (a2, effects1 ++ effects2)
  end.

End WithJSON.

End LocalStorageAdapter.

(** *** MemoryStorageAdapter *)

Module MemoryStorageAdapter.

Record t := { snapshot : option json }.

Definition init : t := {| snapshot := None |}.

Definition load (has_structuredClone : bool) (a : t) : Js.outcome (option json) :=
  match snapshot a with
  | Some s =>
      if truthy s then Js.Resolved (Some (cloneSnapshot has_structuredClone s))
      else Js.Resolved None
  | None => Js.Resolved None
  end.

Definition save (has_structuredClone : bool) (s : json) (a : t) : Js.outcome unit * t :=
  (Js.Resolved tt, {| snapshot := Some (cloneSnapshot has_structuredClone s) |}).

End MemoryStorageAdapter.

(** *** IndexedDbStorageAdapter *)

Module IndexedDbStorageAdapter.

(** What the browser answers during one call: whether [indexedDB] exists,
    how [this.initialized] and [openIndexedDb()] settle, whether opening the
    transaction and the object store throws, how the request on the store
    settles ([get] answers the snapshot of the record, if there is one), and
    how the transaction ends. *)
Record env := {
  indexedDB_defined : bool;
  has_structuredClone : bool;
  initialized : Js.outcome unit;
  openIndexedDb : Js.outcome unit;
  transaction : Js.completion unit;
  get_request : Js.outcome (option json);
  put_request : Js.outcome unit;
  tx_done : Js.outcome unit;
}.

Definition load_try (e : env) : Js.outcome (option json) :=
  _ ← initialized e;
  _ ← openIndexedDb e;
  _ ← Js.call (transaction e);
  record ← get_request e;
  _ ← tx_done e;
  match record with
  | None => Js.Resolved None
  | Some s => Js.Resolved (Some (cloneSnapshot (has_structuredClone e) s))
  end.

Definition load (e : env) : Js.outcome (option json) :=
  if negb (indexedDB_defined e) then Js.Resolved None
  else Js.try_catch (load_try e) (fun error => Js.Resolved None).

Definition save_try (snapshot : json) (e : env) : Js.outcome unit :=
  _ ← initialized e;
  let payload := cloneSnapshot (has_structuredClone e) snapshot in
  _ ← openIndexedDb e;
  _ ← Js.call (transaction e);
  _ ← put_request e;
  tx_done e.

Definition save (snapshot : json) (e : env) : Js.outcome unit :=
  if negb (indexedDB_defined e) then Js.Resolved tt
  else Js.try_catch (save_try snapshot e) (fun error => Js.Resolved tt).

End IndexedDbStorageAdapter.

(** *** The statements of the specification, in its words *)

(** A plain object, as opposed to an array, null or a primitive value. *)
Definition is_object (v : json) : Prop := exists props, v = JObject props.

(** The parsed payload is not an object, or its sessions field is not a
    list. *)
Definition malformed (parsed : json) : Prop :=
  ~ is_object parsed \/ forall items, get_prop "sessions" parsed <> Some (JArray items).

(** A call of [save] on the localStorage adapter ran into the quota: the
    write was attempted and [setItem] threw an error classified as a quota
    error. *)
Definition quota_failure (JSON_stringify : json -> string) (snapshot : json)
  (env : LocalStorageAdapter.save_env) (a : LocalStorageAdapter.t) : Prop :=
  LocalStorageAdapter.writes (snd (LocalStorageAdapter.save JSON_stringify snapshot env a)) <> []
  /\ exists error, LocalStorageAdapter.setItem_throws env = Some error
                   /\ isQuotaExceededError error = true.

(** A save issued 60 seconds or more after the quota failure attempts the
    write again: [env0] and [a0] are the failing save and the adapter before
    it, [s] and [env] the later save. *)
Definition retries_from_60_seconds (JSON_stringify : json -> string) (snapshot : json)
  (env0 : LocalStorageAdapter.save_env) (a0 : LocalStorageAdapter.t)
  (s : json) (env : LocalStorageAdapter.save_env) : Prop :=
    quota_failure JSON_stringify snapshot env0 a0 ->
    LocalStorageAdapter.save_window env = true ->
    LocalStorageAdapter.RETRY_INTERVAL_MS
      <= LocalStorageAdapter.now env - LocalStorageAdapter.now_in_catch env0 ->
    LocalStorageAdapter.writes
      (snd (LocalStorageAdapter.save JSON_stringify s env
              (snd (fst (LocalStorageAdapter.save JSON_stringify snapshot env0 a0)))))
    <> [].

(** *** Scenarios *)

(** A parser for three literal texts, to run the adapter on. *)
Definition parse_literals (text : string) : Js.completion json :=
  if String.eqb text "null" then Js.Normal JNull
  else if String.eqb text "[]" then Js.Normal (JArray [])
  else if String.eqb text "{}" then Js.Normal (JObject [])
  else Js.Throw (Js.Error "SyntaxError").

Definition stringify_stub (v : json) : string := "{}".

Definition stored_array : LocalStorageAdapter.load_env :=
  {| LocalStorageAdapter.load_window := true;
     LocalStorageAdapter.getItem := Js.Normal (Some "[]"%string) |}.

Definition QuotaExceededError : Js.thrown := Js.DOMException "QuotaExceededError" 22.

Definition SecurityError : Js.thrown := Js.DOMException "SecurityError" 18.

(** Reading localStorage is denied. *)
Definition storage_denied : LocalStorageAdapter.load_env :=
  {| LocalStorageAdapter.load_window := true;
     LocalStorageAdapter.getItem := Js.Throw SecurityError |}.

(** A save at time [t] during which [setItem] ends as given. *)
Definition save_at (t : Z) (throws : option Js.thrown) : LocalStorageAdapter.save_env :=
  {| LocalStorageAdapter.save_window := true;
     LocalStorageAdapter.now := t;
     LocalStorageAdapter.setItem_throws := throws;
     LocalStorageAdapter.now_in_catch := t |}.

Definition empty_snapshot : json := mk_snapshot [] None.

End Storage.

(** ** Setting the storage up (storage.ts) *)

Module StorageSetup.
Import Storage.

(** *** Opening the database *)

(** How the promise that [openIndexedDb] makes ends: [request.onsuccess]
    resolves it; [request.onerror] resets the cache and rejects it;
    [indexedDB.open] may throw inside the executor, which rejects the
    promise without any handler being called; and when no handler is called
    ([request.onblocked] does nothing) it stays pending. *)
Inductive open_promise :=
| opened
| open_error (error : Js.thrown)
| open_throws (error : Js.thrown)
| open_blocked.

(** What awaiting the promise yields. *)
Definition promise_of (p : open_promise) : Js.outcome unit :=
  match p with
  | opened => Js.Resolved tt
  | open_error error | open_throws error => Js.Rejected error
  | open_blocked => Js.Pending
  end.

(** What the browser answers during one call of [openIndexedDb]: whether
    [indexedDB] exists, and how a promise made now ends. *)
Record open_env := {
  indexedDB_defined : bool;
  open_request : open_promise;
}.

(** [openIndexedDb], up to the return of the promise: what awaiting the
    returned promise yields, the cache [idbPromise] afterwards, and the
    number of calls of [indexedDB.open]. *)
Definition openIndexedDb (env : open_env) (idbPromise : option open_promise)
  : Js.outcome unit * option open_promise * nat :=
  match idbPromise with
  | Some p => (promise_of p, idbPromise, 0%nat)
  | None =>
      if negb (indexedDB_defined env)
      then (Js.Rejected (Js.Error "IndexedDB unavailable"), None, 0%nat)
      else (promise_of (open_request env), Some (open_request env), 1%nat)
  end.

(** The cached promise has settled: the cache is reset by [request.onerror]
    alone, so that a promise rejected by a throw of [indexedDB.open] stays
    cached like a resolved one. *)
Definition open_settled (idbPromise : option open_promise) : option open_promise :=
  match idbPromise with
  | Some (open_error _) => None
  | _ => idbPromise
  end.

(** Calls of [openIndexedDb] one after the other, the promise not having
    settled in between. *)
Fixpoint open_calls (envs : list open_env) (idbPromise : option open_promise)
  : list (Js.outcome unit) * option open_promise * nat :=
  match envs with
  | [] => ([], idbPromise, 0%nat)
  | env :: rest =>
      let '(p, cache1, n1) := openIndexedDb env idbPromise in
      let '(ps, cache2, n2) := open_calls rest cache1 in
      (p :: ps, cache2, (n1 + n2)%nat)
  end.

(** The adapter that [createStorageAdapter] hands out; the IndexedDB
    adapter carries its [initialized] promise. *)
Inductive adapter :=
| Memory (a : MemoryStorageAdapter.t)
| IndexedDb (initialized : Js.outcome unit)
| Local (a : LocalStorageAdapter.t).

(** [new IndexedDbStorageAdapter()]: throws without [indexedDB]; otherwise
    [initialized] is [openIndexedDb().then(() => undefined)]. *)
Definition new_IndexedDbStorageAdapter (env : open_env)
  (idbPromise : option open_promise)
  : Js.completion (Js.outcome unit) * option open_promise * nat :=
  if negb (indexedDB_defined env)
  then (Js.Throw (Js.Error "IndexedDB unavailable"), idbPromise, 0%nat)
  else
    let '(p, cache, n) := openIndexedDb env idbPromise in
    (Js.Normal p, cache, n).

(** What the browser answers during one call of [createStorageAdapter]:
    whether [window] exists; how the evaluation of the object that is logged
    first ends (it reads the globals [indexedDB], [localStorage] and, in
    [isSafari], [navigator], and a browser that denies access to storage
    throws there); and the answers for [openIndexedDb]. *)
Record create_env := {
  window_defined : bool;
  diagnostics : Js.completion unit;
  idb : open_env;
}.

(** [createStorageAdapter]: the promise of the adapter, the cache once the
    awaited promise has settled, and the number of calls of
    [indexedDB.open]. The constructor and the [await] that follows it call
    [openIndexedDb] one after the other, before the promise can settle. *)
Definition createStorageAdapter (env : create_env)
  (idbPromise : option open_promise)
  : Js.outcome adapter * option open_promise * nat :=
  if negb (window_defined env)
  then (Js.Resolved (Memory MemoryStorageAdapter.init), idbPromise, 0%nat)
  else
    match diagnostics env with
    | Js.Throw error => (Js.Rejected error, idbPromise, 0%nat)
    | Js.Normal _ =>
        if indexedDB_defined (idb env) then
          match new_IndexedDbStorageAdapter (idb env) idbPromise with
          | (Js.Throw _, cache1, n1) =>
              (Js.Resolved (Local LocalStorageAdapter.init), cache1, n1)
          | (Js.Normal initialized, cache1, n1) =>
              let '(p, cache2, n2) := openIndexedDb (idb env) cache1 in
              match p with
              | Js.Resolved _ =>
                  (Js.Resolved (IndexedDb initialized), open_settled cache2, (n1 + n2)%nat)
              | Js.Rejected _ =>
                  (Js.Resolved (Local LocalStorageAdapter.init), open_settled cache2,
                   (n1 + n2)%nat)
              | Js.Pending => (Js.Pending, cache2, (n1 + n2)%nat)
              end
          end
        else (Js.Resolved (Local LocalStorageAdapter.init), idbPromise, 0%nat)
    end.

(** The storage choice of the provider once its module is loaded: the
    in-memory adapter without [window], otherwise [createStorageAdapter],
    and the localStorage adapter should that reject. *)
Definition provider_storage (env : create_env) (idbPromise : option open_promise)
  : Js.outcome adapter :=
  if negb (window_defined env) then Js.Resolved (Memory MemoryStorageAdapter.init)
  else Js.try_catch (fst (fst (createStorageAdapter env idbPromise)))
         (fun error => Js.Resolved (Local LocalStorageAdapter.init)).

(** *** localStorage behind the adapter *)

(** The content of [window.localStorage] after a call whose effects are
    given: a [setItem] that throws stores nothing. *)
Definition store_after (throws : option Js.thrown)
  (effects : list LocalStorageAdapter.effect) (store : gmap string string)
  : gmap string string :=
  match throws with
  | Some _ => store
  | None =>
      fold_left
        (fun st e =>
           match e with
           | LocalStorageAdapter.setItem key value => <[key := value]> st
           | LocalStorageAdapter.warn _ => st
           end)
        effects store
  end.

(** What [load] reads from a storage with the given content. *)
Definition reading (store : gmap string string) : LocalStorageAdapter.load_env :=
  {| LocalStorageAdapter.load_window := true;
     LocalStorageAdapter.getItem := Js.Normal (store !! STORAGE_KEY) |}.

(** [save] on the storage itself: the adapter and the content afterwards. *)
Definition save_to (JSON_stringify : json -> string) (snapshot : json)
  (env : LocalStorageAdapter.save_env) (a : LocalStorageAdapter.t)
  (store : gmap string string) : LocalStorageAdapter.t * gmap string string :=
  let result := LocalStorageAdapter.save JSON_stringify snapshot env a in
  (snd (fst result), store_after (LocalStorageAdapter.setItem_throws env) (snd result) store).

(** *** Saves in a row on the in-memory adapter *)

Fixpoint memory_saves (has_structuredClone : bool) (payloads : list json)
  (a : MemoryStorageAdapter.t) : MemoryStorageAdapter.t :=
  match payloads with
  | [] => a
  | s :: rest =>
      memory_saves has_structuredClone rest
        (snd (MemoryStorageAdapter.save has_structuredClone s a))
  end.

(** *** Scenarios *)

Definition parse_stub (text : string) : Js.completion json :=
  Js.Normal empty_snapshot.

Definition open_ok : open_env :=
  {| indexedDB_defined := true; open_request := opened |}.

(** The request fails: [request.onerror] is called. *)
Definition open_fails : open_env :=
  {| indexedDB_defined := true;
     open_request := open_error (Js.Error "Failed to open IndexedDB session store") |}.

(** [indexedDB.open] throws, as a browser that denies storage does. *)
Definition open_denied : open_env :=
  {| indexedDB_defined := true; open_request := open_throws SecurityError |}.

Definition browser (e : open_env) : create_env :=
  {| window_defined := true; diagnostics := Js.Normal tt; idb := e |}.

(** A database that opens, with the given record under the snapshot key and
    a transaction that ends as given. *)
Definition idb_reads (record : option json) (done : Js.outcome unit)
  : IndexedDbStorageAdapter.env :=
  {| IndexedDbStorageAdapter.indexedDB_defined := true;
     IndexedDbStorageAdapter.has_structuredClone := true;
     IndexedDbStorageAdapter.initialized := Js.Resolved tt;
     IndexedDbStorageAdapter.openIndexedDb := Js.Resolved tt;
     IndexedDbStorageAdapter.transaction := Js.Normal tt;
     IndexedDbStorageAdapter.get_request := Js.Resolved record;
     IndexedDbStorageAdapter.put_request := Js.Resolved tt;
     IndexedDbStorageAdapter.tx_done := done |}.

End StorageSetup.

(** ** The other effects of the provider (Nip46Provider) *)

Module Provider.
Import Nip46.

(** *** Loading the module *)

(** [loadNip46Module], up to the return of the promise: the promise, the
    loader cached at module level afterwards, and the number of dynamic
    imports. [import_] is how an import started now settles. *)
Definition loadNip46Module (import_ : Js.outcome unit)
  (nip46ModuleLoader : option (Js.outcome unit))
  : Js.outcome unit * option (Js.outcome unit) * nat :=
  match nip46ModuleLoader with
  | None => (import_, Some import_, 1%nat)
  | Some loader => (loader, nip46ModuleLoader, 0%nat)
  end.

Fixpoint module_loads (imports : list (Js.outcome unit))
  (nip46ModuleLoader : option (Js.outcome unit))
  : list (Js.outcome unit) * option (Js.outcome unit) * nat :=
  match imports with
  | [] => ([], nip46ModuleLoader, 0%nat)
  | import_ :: rest =>
      let '(p, loader1, n1) := loadNip46Module import_ nip46ModuleLoader in
      let '(ps, loader2, n2) := module_loads rest loader1 in
      (p :: ps, loader2, (n1 + n2)%nat)
  end.

(** *** Hydration *)

(** The state that the hydration effect acts on: the snapshot and the ready
    flag of the provider, and the two variables of the effect. *)
Record Hydration := {
  snapshot : SessionSnapshot;
  ready : bool;
  disposed : bool;
  subscribed : bool;
}.

Definition hydration_start : Hydration :=
  {| snapshot := defaultSnapshot; ready := false; disposed := false; subscribed := false |}.

Inductive HydrationEvent :=
| HydrateResolved (hydratedSnapshot : SessionSnapshot)
| HydrateRejected
| SnapshotChanged (changed : SessionSnapshot)
| Cleanup.

Definition hydration_step (h : Hydration) (e : HydrationEvent) : Hydration :=
  match e with
  | HydrateResolved hydratedSnapshot =>
      if disposed h then h
      else {| snapshot := hydratedSnapshot; ready := true;
              disposed := disposed h; subscribed := true |}
  | HydrateRejected =>
      if disposed h then h
      else {| snapshot := snapshot h; ready := true;
              disposed := disposed h; subscribed := true |}
  | SnapshotChanged changed =>
      if subscribed h
      then {| snapshot := changed; ready := ready h;
              disposed := disposed h; subscribed := subscribed h |}
      else h
  | Cleanup =>
      {| snapshot := snapshot h; ready := ready h; disposed := true; subscribed := false |}
  end.

Definition hydration_run (h : Hydration) (events : list HydrationEvent) : Hydration :=
  fold_left hydration_step events h.

(** The promise of [hydrate] has settled among the events. *)
Definition settles (e : HydrationEvent) : bool :=
  match e with
  | HydrateResolved _ | HydrateRejected => true
  | SnapshotChanged _ | Cleanup => false
  end.

Definition is_cleanup (e : HydrationEvent) : bool :=
  match e with Cleanup => true | _ => false end.

(** *** Fetching the user public key *)

Definition fetch_deps_ready (d : Deps) : bool :=
  Nip46.ready d && transportReady d && service_present d.

(** [lastProcessed && lastProcessed >= session.updatedAt] *)
Definition processed (lastProcessed : option Z) (session : Session) : bool :=
  Js.truthy_number lastProcessed
  && match lastProcessed with
     | Some t => updatedAt session <=? t
     | None => false
     end.

(** The body of [snapshot.sessions.forEach(session => ...)] in the fetch
    effect: the calls of [service.fetchUserPublicKey], by session id. *)
Definition fetch_session (fetchTrackerRef : gmap string Z) (session : Session)
  : list string :=
  if negb (is_active (status session))
     || negb (Js.truthy_string (remoteSignerPubkey session))
     || Js.truthy_string (userPubkey session)
     || Js.truthy_string (lastError session)
  then []
  else if processed (fetchTrackerRef !! id session) session then []
  else [id session].

Definition fetch_effect (d : Deps) (snapshot : SessionSnapshot)
  (fetchTrackerRef : gmap string Z) : list string :=
  if negb (fetch_deps_ready d) then []
  else flat_map (fetch_session fetchTrackerRef) (sessions snapshot).

(** The promise of [fetchUserPublicKey] for [session] settles: the tracker
    is updated only after a successful fetch, with the stamp the session
    had when the fetch was issued. *)
Definition fetch_settled (session : Session) (ok : bool)
  (fetchTrackerRef : gmap string Z) : gmap string Z :=
  if ok then <[id session := updatedAt session]> fetchTrackerRef
  else fetchTrackerRef.

(** The sessions that the fetch effect goes on with, before it looks at
    the tracker. *)
Definition fetch_conditions (s : Session) : Prop :=
  status s = active /\ is_set (remoteSignerPubkey s)
  /\ is_blank (userPubkey s) /\ is_blank (lastError s).

(** *** Scenarios *)

(** An active session whose user public key is not known yet. *)
Definition S4 (stamp : Z) : Session :=
  {| id := "S4"; status := active;
     remoteSignerPubkey := Some "R4"%string; userPubkey := None;
     lastError := None; lastSeenAt := None; createdAt := 4; updatedAt := stamp |}.

End Provider.

(** ** The manual connect of the application (App) *)

Module App.
Import Stdlib.Strings.Ascii.
Import Nip46.

(** The predicate of [filter] and of [some]:
    [session.status !== "revoked" && !session.lastError]. *)
Definition connectable (session : Session) : bool :=
  match status session with revoked => false | _ => true end
  && negb (Js.truthy_string (lastError session)).

(** The compare function [(a, b) => b.updatedAt - a.updatedAt]. *)
Definition by_updatedAt_desc (a b : Session) : Z := updatedAt b - updatedAt a.

(** [Array.prototype.sort] with a compare function: the sort is stable, an
    element stays before the later elements that compare equal to it. *)
Fixpoint sort_insert (compare : Session -> Session -> Z) (x : Session)
  (sorted : list Session) : list Session :=
  match sorted with
  | [] => [x]
  | y :: rest =>
      if compare x y <=? 0 then x :: y :: rest
      else y :: sort_insert compare x rest
  end.

Definition sort (compare : Session -> Session -> Z) (l : list Session) : list Session :=
  fold_right (sort_insert compare) [] l.

(** [sessions.filter(...).sort(...)[0] ?? null] *)
Definition latestRemoteSignerSession (snapshot : SessionSnapshot) : option Session :=
  head (sort by_updatedAt_desc (List.filter connectable (sessions snapshot))).

(** [sessions.some(...)] *)
Definition hasConnectableRemoteSignerSession (snapshot : SessionSnapshot) : bool :=
  existsb connectable (sessions snapshot).

(** What the effect of the manual connect does when it runs. *)
Inductive Action :=
| setPendingRemoteSignerConnect (value : bool)
| setConnectSignerOpen (value : bool)
| connectSession (sessionId : string).

Record ConnectDeps := {
  pendingRemoteSignerConnect : bool;
  nip46Ready : bool;
  nip46TransportReady : bool;
  nip46Service : bool;
}.

(** The effect up to the call of [attemptReconnect]. *)
Definition manual_connect_effect (d : ConnectDeps) (snapshot : SessionSnapshot)
  : list Action :=
  if negb (pendingRemoteSignerConnect d) then []
  else if negb (nip46Ready d) then []
  else if negb (nip46TransportReady d) then []
  else if negb (nip46Service d) then []
  else
    let sessionId := id <$> latestRemoteSignerSession snapshot in
    if negb (Js.truthy_string sessionId) then
      setPendingRemoteSignerConnect false
      :: (if negb (hasConnectableRemoteSignerSession snapshot)
          then [setConnectSignerOpen true] else [])
    else
      match sessionId with
      | Some sid => [connectSession sid]
      | None => []
      end.

(** [attemptReconnect] once the promise of [connectSession] has settled:
    the catch block, then the finally block. *)
Definition attempt_settled (ok cancelled : bool) : list Action :=
  (if ok then [] else if cancelled then [] else [setConnectSignerOpen true])
  ++ (if negb cancelled then [setPendingRemoteSignerConnect false] else []).

Definition connect_ready : ConnectDeps :=
  {| pendingRemoteSignerConnect := true; nip46Ready := true;
     nip46TransportReady := true; nip46Service := true |}.

(** *** The list of servers *)

(** Modelled from the spec: the fields of a managed server that the
    validation reads (the type is declared in shared/types/servers, which is
    not among the sources); a field that is undefined is [None]. *)
Record ManagedServer := {
  url : option string;
  name : option string;
}.

(** [value || ""] *)
Definition or_empty (value : option string) : string :=
  if Js.truthy_string value then default ""%string value else ""%string.

Definition is_letter (lower upper c : Ascii.ascii) : bool :=
  Ascii.eqb c lower || Ascii.eqb c upper.

(** [/^https?:\/\//i.test(text)] *)
Definition test_http_prefix (text : string) : bool :=
  match text with
  | String h (String t1 (String t2 (String p rest))) =>
      is_letter "h"%char "H"%char h && is_letter "t"%char "T"%char t1
      && is_letter "t"%char "T"%char t2 && is_letter "p"%char "P"%char p
      && (match rest with
          | String s rest' => is_letter "s"%char "S"%char s && String.prefix "://" rest'
          | EmptyString => false
          end
          || String.prefix "://" rest)
  | _ => false
  end.

(** [text.replace(/\/$/, "")]: one slash at the very end is removed. *)
Fixpoint strip_trailing_slash (text : string) : string :=
  match text with
  | EmptyString => EmptyString
  | String c EmptyString => if Ascii.eqb c "/"%char then EmptyString else text
  | String c rest => String c (strip_trailing_slash rest)
  end.

Section WithStringMethods.
(** [String.prototype.trim] and [String.prototype.toLowerCase] *)
Variable trim : string -> string.
Variable toLowerCase : string -> string.

Definition trimmedUrl (server : ManagedServer) : string := trim (or_empty (url server)).

Definition normalizedUrl (server : ManagedServer) : string :=
  toLowerCase (strip_trailing_slash (trimmedUrl server)).

(** The loop of [validateManagedServers], with the set [seen]. *)
Fixpoint validate_from (seen : gset string) (servers : list ManagedServer)
  : option string :=
  match servers with
  | [] => None
  | server :: rest =>
      if negb (Js.truthy_string (Some (trimmedUrl server)))
      then Some "Enter a server URL for every entry."%string
      else if negb (test_http_prefix (trimmedUrl server))
      then Some "Server URLs must start with http:// or https://."%string
      else if bool_decide (normalizedUrl server ∈ seen)
      then Some "Server URLs must be unique."%string
      else if negb (Js.truthy_string (Some (trim (or_empty (name server)))))
      then Some "Enter a server name for every entry."%string
      else validate_from ({[normalizedUrl server]} ∪ seen) rest
  end.

Definition validateManagedServers (servers : list ManagedServer) : option string :=
  validate_from ∅ servers.

(** What the validation asks of one entry. *)
Definition entry_ok (server : ManagedServer) : Prop :=
  trimmedUrl server <> ""%string
  /\ test_http_prefix (trimmedUrl server) = true
  /\ trim (or_empty (name server)) <> ""%string.

End WithStringMethods.

End App.

(** * Part II: properties *)

Import Js.

(** ** Truthiness *)

Lemma truthy_string_true (v : option string) :
  truthy_string v = true <-> Nip46.is_set v.
Proof.
  unfold Nip46.is_set. destruct v as [s|]; simpl.
  - rewrite negb_true_iff. split.
    + intros H. exists s. split; [reflexivity|].
      intros ->. discriminate H.
    + intros (s' & [= <-] & Hne). now apply String.eqb_neq.
  - split; [discriminate|]. intros (s & [=] & _).
Qed.

Lemma truthy_string_false (v : option string) :
  truthy_string v = false <-> Nip46.is_blank v.
Proof.
  unfold Nip46.is_blank. destruct v as [s|]; simpl.
  - rewrite negb_false_iff, String.eqb_eq. split.
    + intros ->. now right.
    + intros [[=]|[= ->]]. reflexivity.
  - split; [now left | reflexivity].
Qed.

Lemma truthy_number_true (v : option Z) :
  truthy_number v = true <-> exists n, v = Some n /\ n <> 0.
Proof.
  destruct v as [n|]; simpl.
  - rewrite negb_true_iff, Z.eqb_neq. split.
    + intros H. now exists n.
    + now intros (n' & [= <-] & Hne).
  - split; [discriminate|]. intros (n & [=] & _).
Qed.

(** ** Signer adoption: which session is chosen *)

Section AdoptionCandidate.
Import Nip46.

Lemma is_active_true st : is_active st = true <-> st = active.
Proof. destruct st; simpl; split; congruence. Qed.

Lemma adoptable_spec (s : Session) :
  adoptable s = true <-> adoptable_conditions s.
Proof.
  unfold adoptable, adoptable_conditions.
  rewrite !andb_true_iff, negb_true_iff, is_active_true,
    truthy_string_true, truthy_string_false.
  tauto.
Qed.

Lemma adoptable_restamp f s : adoptable (restamp f s) = adoptable s.
Proof. reflexivity. Qed.

Lemma find_restamp f (l : list Session) :
  List.find adoptable (map (restamp f) l) = restamp f <$> List.find adoptable l.
Proof.
  induction l as [|s l IH]; simpl; [reflexivity|].
  rewrite adoptable_restamp. destruct (adoptable s); [reflexivity | exact IH].
Qed.

Lemma find_first_match {A} (p : A -> bool) (l : list A) :
  match List.find p l with
  | Some c => exists before after,
      l = before ++ c :: after /\ p c = true /\ Forall (fun s => p s = false) before
  | None => Forall (fun s => p s = false) l
  end.
Proof.
  induction l as [|x l IH]; simpl; [constructor|].
  destruct (p x) eqn:Hx.
  - exists [], l. repeat split; [assumption | constructor].
  - destruct (List.find p l) as [c|].
    + destruct IH as (before & after & -> & Hc & Hb).
      exists (x :: before), after. repeat split; [assumption | now constructor].
    + now constructor.
Qed.

Lemma not_adoptable (s : Session) :
  adoptable s = false -> ~ adoptable_conditions s.
Proof. intros H Hc. apply adoptable_spec in Hc. congruence. Qed.

(** C1, as the specification states it, fails: with S1 (updated at 100)
    listed before S2, an update that raises the stamp of S2 to 200 leaves S1
    the chosen session, although S2 qualifies and is the more recently
    updated one. *)
Lemma adoption_ignores_recency :
  ~ adopts_most_recently_updated (two_sessions 200).
Proof.
  intros H.
  destruct (H S1 eq_refl) as (_ & _ & Hmax).
  specialize (Hmax (S2 200)). simpl in Hmax.
  assert (200 <= 100) as Habs; [|lia].
  apply Hmax.
  - right. left. reflexivity.
  - repeat split; simpl; congruence.
Qed.

(** C1 (amended): the session chosen for adoption is the first session, in
    the order of the snapshot, that has status active, a user public key
    that is set and a blank last error; none is chosen exactly when no
    session has them. The choice does not depend on the updatedAt stamps:
    whatever they are changed to, the same session is chosen. *)
Theorem candidate_is_first_adoptable (snapshot : SessionSnapshot) :
  match candidate snapshot with
  | Some c =>
      exists before after,
        sessions snapshot = before ++ c :: after /\
        adoptable_conditions c /\
        Forall (fun s => ~ adoptable_conditions s) before
  | None => Forall (fun s => ~ adoptable_conditions s) (sessions snapshot)
  end
  /\ forall f : Session -> Z,
       candidate (restamp_snapshot f snapshot) = restamp f <$> candidate snapshot.
Proof.
  split.
  - unfold candidate.
    pose proof (find_first_match adoptable (sessions snapshot)) as H.
    destruct (List.find adoptable (sessions snapshot)) as [c|].
    + destruct H as (before & after & Heq & Hc & Hb).
      exists before, after. split; [exact Heq|]. split.
      * now apply adoptable_spec.
      * eapply Forall_impl; [exact Hb|]. intros s. apply not_adoptable.
    + eapply Forall_impl; [exact H|]. intros s. apply not_adoptable.
  - intros f. unfold candidate, restamp_snapshot. simpl. apply find_restamp.
Qed.

End AdoptionCandidate.

(** ** The reconnection loop: which sessions are attempted *)

Section ReconnectEligibility.
Import Nip46.

Lemma shouldReconnect_spec adopted now s :
  shouldReconnect adopted now s = true <->
  (adopted = Some (id s) \/
   exists seen, lastSeenAt s = Some seen /\ now - seen <= RECONNECT_COOLDOWN_MS).
Proof.
  unfold shouldReconnect.
  rewrite orb_true_iff, bool_decide_eq_true.
  destruct (lastSeenAt s) as [seen|].
  - rewrite Z.leb_le. split.
    + intros [H|H]; [now left | right; now exists seen].
    + intros [H|(seen' & [= <-] & H)]; [now left | now right].
  - split.
    + intros [H|H]; [now left | discriminate].
    + intros [H|(seen' & [=] & _)]. now left.
Qed.

(** One turn of the loop either leaves everything as it is, or the session
    passed every test and the attempt is recorded and issued. *)
Lemma reconnect_session_cases adopted now r s :
  reconnect_session adopted now r s = (r, [])
  \/ (reconnect_conditions adopted now s
      /\ (id s ∉ reconnectTrackerRef r)
      /\ in_cooldown (reconnectCooldownRef r !! id s) now = false
      /\ reconnect_session adopted now r s
         = (start_attempt (id s) now r, [connectSession (id s)])).
Proof.
  unfold reconnect_session.
  destruct (is_active (status s)) eqn:Hact; simpl; [|now left].
  destruct (truthy_string (remoteSignerPubkey s)) eqn:Hrem; simpl; [|now left].
  destruct (truthy_string (lastError s)) eqn:Herr; simpl; [now left|].
  destruct (shouldReconnect adopted now s) eqn:Hsr; simpl; [|now left].
  case_bool_decide as Htr; [now left|].
  destruct (in_cooldown (reconnectCooldownRef r !! id s) now) eqn:Hcd; [now left|].
  right. repeat split; try assumption.
  - now apply is_active_true.
  - now apply truthy_string_true.
  - now apply truthy_string_false.
  - now apply shouldReconnect_spec.
Qed.

Lemma reconnect_session_skips adopted now r s :
  ~ reconnect_conditions adopted now s ->
  reconnect_session adopted now r s = (r, []).
Proof.
  intros Hn. destruct (reconnect_session_cases adopted now r s) as [H|(Hc & _)].
  - exact H.
  - contradiction.
Qed.

Lemma reconnect_sessions_calls adopted now (l : list Session) :
  forall r sessionId,
    In (connectSession sessionId) (snd (reconnect_sessions adopted now l r)) ->
    exists s, In s l /\ id s = sessionId /\ reconnect_conditions adopted now s.
Proof.
  induction l as [|s l IH]; intros r sessionId; simpl; [tauto|].
  destruct (reconnect_session adopted now r s) as [r1 calls1] eqn:H1.
  destruct (reconnect_sessions adopted now l r1) as [r2 calls2] eqn:H2.
  simpl. rewrite in_app_iff. intros [Hin|Hin].
  - destruct (reconnect_session_cases adopted now r s) as [H|(Hc & _ & _ & H)];
      rewrite H in H1; injection H1 as <- <-.
    + destruct Hin.
    + destruct Hin as [[= <-]|[]]. exists s. auto.
  - specialize (IH r1 sessionId). rewrite H2 in IH.
    destruct (IH Hin) as (s' & Hs' & Hid & Hc). exists s'. auto.
Qed.

(** C3, as the specification states it, fails: a session whose last error
    is the empty string (not nil) is attempted, because the loop tests the
    truthiness of the field. *)
Lemma reconnect_attempts_blank_error :
  ~ attempts_only_candidates all_ready 1000000 only_S3 initial_refs.
Proof.
  intros H.
  destruct (H "S3"%string) as (s & Hin & _ & _ & _ & Herr & _).
  - vm_compute. left. reflexivity.
  - destruct Hin as [<-|[]]. discriminate Herr.
Qed.

(** C3 (amended): the reconnection loop issues connectSession for a session
    id only if the effect passed its guard and a session of the snapshot
    with that id has status active, a remote signer key that is set, a last
    error that is nil or the empty string, and is the adopted session or
    has a lastSeenAt that is not nil with now - lastSeenAt at most 60000 ms;
    a session that fails one of these conditions is skipped without any
    change. *)
Theorem reconnect_attempts_only_eligible (d : Deps) (now : Z)
  (snapshot : SessionSnapshot) (r : Refs) :
  (forall sessionId,
     In (connectSession sessionId) (snd (reconnect_effect d now snapshot r)) ->
     reconnect_deps_ready d = true /\
     exists s, In s (sessions snapshot) /\ id s = sessionId /\
               reconnect_conditions (activeSessionRef r) now s)
  /\ (forall s r', ~ reconnect_conditions (activeSessionRef r) now s ->
        reconnect_session (activeSessionRef r) now r' s = (r', [])).
Proof.
  split.
  - intros sessionId. unfold reconnect_effect.
    destruct (reconnect_deps_ready d); simpl; [|tauto].
    intros Hin. split; [reflexivity|].
    eapply reconnect_sessions_calls. exact Hin.
  - intros s r' Hn. now apply reconnect_session_skips.
Qed.

(** The loop at time 1000000 on the snapshot that holds S1 alone: S1 is
    attempted, and it has the conditions. *)
Lemma reconnect_attempts_only_eligible_S1 :
  reconnect_deps_ready all_ready = true /\
  exists s, In s (sessions only_S1) /\ id s = "S1"%string /\
            reconnect_conditions None 1000000 s.
Proof.
  apply (proj1 (reconnect_attempts_only_eligible all_ready 1000000 only_S1 initial_refs)).
  vm_compute. left. reflexivity.
Defined.

End ReconnectEligibility.

(** ** The reconnection loop: the cooldown *)

Section ReconnectCooldown.
Import Nip46.

Variable sid : string.
Variable t0 : Z.
Hypothesis t0_nonzero : t0 <> 0.

Lemma in_cooldown_running now :
  now - t0 < RECONNECT_COOLDOWN_MS -> in_cooldown (Some t0) now = true.
Proof.
  intros H. unfold in_cooldown. simpl.
  apply andb_true_intro. split.
  - apply negb_true_iff, Z.eqb_neq, t0_nonzero.
  - now apply Z.ltb_lt.
Qed.

Lemma in_cooldown_over now :
  RECONNECT_COOLDOWN_MS <= now - t0 -> in_cooldown (Some t0) now = false.
Proof.
  intros H. unfold in_cooldown. simpl.
  apply andb_false_intro2. now apply Z.ltb_ge.
Qed.

Lemma reconnect_session_cooling adopted now r s :
  cooling sid t0 r -> now - t0 < RECONNECT_COOLDOWN_MS ->
  let '(r', calls) := reconnect_session adopted now r s in
  ~ In (connectSession sid) calls /\ cooling sid t0 r' /\
  (sid ∈ reconnectTrackerRef r' -> sid ∈ reconnectTrackerRef r).
Proof.
  intros Hc Hnow.
  destruct (reconnect_session_cases adopted now r s) as [H|(_ & _ & Hcd & H)];
    rewrite H.
  - simpl. tauto.
  - destruct (decide (id s = sid)) as [Heq|Hne].
    + rewrite Heq in Hcd. unfold cooling in Hc. rewrite Hc in Hcd.
      rewrite (in_cooldown_running now Hnow) in Hcd. discriminate.
    + split; [|split].
      * simpl. intros [[= Heq]|[]]. contradiction.
      * unfold cooling, start_attempt. simpl.
        rewrite lookup_insert_ne; [exact Hc | exact Hne].
      * unfold start_attempt. simpl.
        rewrite elem_of_union, elem_of_singleton. intros [Heq|Hin]; [|exact Hin].
        symmetry in Heq. contradiction.
Qed.

Lemma reconnect_sessions_cooling adopted now (l : list Session) :
  forall r,
    cooling sid t0 r -> now - t0 < RECONNECT_COOLDOWN_MS ->
    let '(r', calls) := reconnect_sessions adopted now l r in
    ~ In (connectSession sid) calls /\ cooling sid t0 r' /\
    (sid ∈ reconnectTrackerRef r' -> sid ∈ reconnectTrackerRef r).
Proof.
  induction l as [|s l IH]; intros r Hc Hnow; simpl; [tauto|].
  pose proof (reconnect_session_cooling adopted now r s Hc Hnow) as H1.
  destruct (reconnect_session adopted now r s) as [r1 calls1].
  destruct H1 as (Hn1 & Hc1 & Ht1).
  specialize (IH r1 Hc1 Hnow).
  destruct (reconnect_sessions adopted now l r1) as [r2 calls2].
  destruct IH as (Hn2 & Hc2 & Ht2).
  split; [|split].
  - rewrite in_app_iff. tauto.
  - exact Hc2.
  - auto.
Qed.

Lemma step_cooling r e :
  cooling sid t0 r ->
  (forall d now snapshot, e = ReconnectEffect d now snapshot ->
                          now - t0 < RECONNECT_COOLDOWN_MS) ->
  let '(r', calls) := step r e in
  ~ In (connectSession sid) calls /\ cooling sid t0 r' /\
  (sid ∈ reconnectTrackerRef r' -> sid ∈ reconnectTrackerRef r) /\
  (forall ok, e = ConnectSettled sid ok -> sid ∉ reconnectTrackerRef r').
Proof.
  intros Hc Hwin. destruct e as [d now snapshot|x ok|d snapshot|]; simpl.
  - unfold reconnect_effect. destruct (reconnect_deps_ready d); simpl.
    + pose proof (reconnect_sessions_cooling (activeSessionRef r) now
                    (sessions snapshot) r Hc (Hwin d now snapshot eq_refl)) as H.
      destruct (reconnect_sessions _ now (sessions snapshot) r) as [r' calls].
      destruct H as (Hn & Hc' & Ht).
      split; [exact Hn|]. split; [exact Hc'|]. split; [exact Ht|].
      intros ok Heq. discriminate Heq.
    + split; [intros []|]. split; [exact Hc|]. split; [tauto|].
      intros ok Heq. discriminate Heq.
  - split; [intros []|]. split; [destruct ok; exact Hc|]. split.
    + unfold connect_settled, tracker_delete.
      destruct ok; simpl; rewrite ?elem_of_difference; tauto.
    + intros ok' Heq. injection Heq as -> ->.
      unfold connect_settled, tracker_delete.
      destruct ok'; simpl; rewrite ?elem_of_difference, elem_of_singleton; tauto.
  - unfold adoption_effect.
    destruct (adoption_deps_ready d); simpl.
    + destruct (candidate snapshot) as [c|].
      * case_bool_decide; simpl.
        -- split; [intros []|]. split; [exact Hc|]. split; [tauto|].
           intros ok Heq. discriminate Heq.
        -- split; [intros [Heq|[]]; discriminate Heq|].
           split; [exact Hc|]. split; [tauto|].
           intros ok Heq. discriminate Heq.
      * destruct (truthy_string (activeSessionRef r)); simpl.
        -- split; [intros [Heq|[]]; discriminate Heq|].
           split; [exact Hc|]. split; [tauto|].
           intros ok Heq. discriminate Heq.
        -- split; [intros []|]. split; [exact Hc|]. split; [tauto|].
           intros ok Heq. discriminate Heq.
    + split; [intros []|]. split; [exact Hc|]. split; [tauto|].
      intros ok Heq. discriminate Heq.
  - split; [intros []|]. split; [exact Hc|]. split; [tauto|].
    intros ok Heq. discriminate Heq.
Qed.

Lemma run_cooling (events : list Event) :
  forall r,
    cooling sid t0 r -> within_cooldown t0 events ->
    let '(r', calls) := run r events in
    ~ In (connectSession sid) calls /\ cooling sid t0 r' /\
    ((sid ∉ reconnectTrackerRef r \/ exists ok, In (ConnectSettled sid ok) events) ->
     sid ∉ reconnectTrackerRef r').
Proof.
  induction events as [|e events IH]; intros r Hc Hwin; simpl.
  - split; [intros []|]. split; [exact Hc|]. intros [H|(ok & [])]. exact H.
  - assert (forall d now snapshot, e = ReconnectEffect d now snapshot ->
                                   now - t0 < RECONNECT_COOLDOWN_MS) as He.
    { intros d now snapshot ->. apply (Hwin d now snapshot). now left. }
    pose proof (step_cooling r e Hc He) as H1.
    destruct (step r e) as [r1 calls1].
    destruct H1 as (Hn1 & Hc1 & Ht1 & Hs1).
    assert (within_cooldown t0 events) as Hwin'.
    { intros d now snapshot Hin. apply (Hwin d now snapshot). now right. }
    specialize (IH r1 Hc1 Hwin').
    destruct (run r1 events) as [r2 calls2].
    destruct IH as (Hn2 & Hc2 & Ht2).
    split; [|split].
    + rewrite in_app_iff. tauto.
    + exact Hc2.
    + intros [Hnot|(ok & [Heq|Hin])]; apply Ht2.
      * left. intros Hin. apply Hnot, Ht1, Hin.
      * left. apply (Hs1 ok). exact Heq.
      * right. now exists ok.
Qed.

End ReconnectCooldown.

Section ReconnectCooldownClaim.
Import Nip46.

(** C2, as the specification states it, fails in its second half: S1 is
    attempted at time 1000000 and the connect succeeds; one millisecond
    later S1 is still eligible, yet no new attempt is issued, because the
    time of the attempt stays in the cooldown map. *)
Lemma success_keeps_cooldown :
  ~ success_clears_cooldown None 1000000 1000001 initial_refs S1.
Proof.
  intros H.
  specialize (H (start_attempt "S1" 1000000 initial_refs)).
  assert (snd (reconnect_session None 1000001
                 (connect_settled (id S1) true
                    (start_attempt "S1" 1000000 initial_refs)) S1) = [])
    as Hrun by (vm_compute; reflexivity).
  rewrite H in Hrun.
  - discriminate Hrun.
  - vm_compute. reflexivity.
  - lia.
  - repeat split.
    + exists "R1"%string. split; [reflexivity | discriminate].
    + left. reflexivity.
    + right. exists 990000. split; [reflexivity|]. unfold RECONNECT_COOLDOWN_MS. lia.
Qed.

(** C2 (amended): once the loop has issued connectSession for a session at
    time t0 (a reading of Date.now(), not 0), no run of the loop earlier
    than t0 + 60 seconds issues another attempt for that session, whether
    the attempt failed, succeeded or is still in flight: the time of the
    attempt stays in the cooldown map and a success does not clear it. Once
    the attempt has settled, a run at t0 + 60 seconds or later attempts the
    session again if it has the conditions of the loop. *)
Theorem reconnect_cooldown_after_attempt (adopted : option string) (t0 : Z)
  (r r1 : Refs) (s : Session) (events : list Event) :
  t0 <> 0 ->
  reconnect_session adopted t0 r s = (r1, [connectSession (id s)]) ->
  within_cooldown t0 events ->
  ~ In (connectSession (id s)) (snd (run r1 events))
  /\ reconnectCooldownRef (fst (run r1 events)) !! id s = Some t0
  /\ forall ok now adopted',
       In (ConnectSettled (id s) ok) events ->
       RECONNECT_COOLDOWN_MS <= now - t0 ->
       reconnect_conditions adopted' now s ->
       snd (reconnect_session adopted' now (fst (run r1 events)) s)
       = [connectSession (id s)].
Proof.
  intros Ht0 Hattempt Hwin.
  assert (cooling (id s) t0 r1) as Hc.
  { destruct (reconnect_session_cases adopted t0 r s) as [H|(_ & _ & _ & H)];
      rewrite H in Hattempt; [discriminate|].
    injection Hattempt as <-. unfold cooling, start_attempt. simpl.
    apply lookup_insert_eq. }
  pose proof (run_cooling (id s) t0 Ht0 events r1 Hc Hwin) as H.
  destruct (run r1 events) as [r2 calls]. simpl.
  destruct H as (Hn & Hc2 & Htr).
  split; [exact Hn|]. split; [exact Hc2|].
  intros ok now adopted' Hsettled Hnow Hcond.
  destruct (reconnect_session_cases adopted' now r2 s) as [H|(_ & _ & _ & H)];
    [|now rewrite H].
  exfalso.
  assert (id s ∉ reconnectTrackerRef r2) as Hfree.
  { apply Htr. right. now exists ok. }
  revert H. unfold reconnect_session.
  destruct Hcond as (Hact & Hrem & Herr & Hsr).
  apply is_active_true in Hact. apply truthy_string_true in Hrem.
  apply truthy_string_false in Herr. apply shouldReconnect_spec in Hsr.
  rewrite Hact, Hrem, Herr, Hsr. simpl.
  rewrite bool_decide_eq_false_2 by exact Hfree.
  unfold cooling in Hc2. rewrite Hc2, (in_cooldown_over t0 now Hnow).
  discriminate.
Qed.

(** S1 is attempted at time 1000000; the connect fails, and the loop runs
    again 1 ms and 59999 ms later: no second attempt. *)
Lemma reconnect_cooldown_after_failure_S1 :
  let events := [ConnectSettled "S1" false;
                 ReconnectEffect all_ready 1000001 only_S1;
                 ReconnectEffect all_ready 1059999 only_S1] in
  let r1 := start_attempt "S1" 1000000 initial_refs in
  ~ In (connectSession "S1") (snd (run r1 events))
  /\ reconnectCooldownRef (fst (run r1 events)) !! "S1"%string = Some 1000000
  /\ forall ok now adopted',
       In (ConnectSettled "S1" ok) events ->
       RECONNECT_COOLDOWN_MS <= now - 1000000 ->
       reconnect_conditions adopted' now S1 ->
       snd (reconnect_session adopted' now (fst (run r1 events)) S1)
       = [connectSession "S1"].
Proof.
  apply (reconnect_cooldown_after_attempt None 1000000 initial_refs
           (start_attempt "S1" 1000000 initial_refs) S1).
  - lia.
  - vm_compute. reflexivity.
  - intros d now snapshot [[=]|[[= _ <- _]|[[= _ <- _]|[]]]];
      unfold RECONNECT_COOLDOWN_MS; lia.
Defined.

End ReconnectCooldownClaim.

(** ** Signer adoption: the swap *)

Section AdoptionSwap.
Import Nip46 NdkContext.

Lemma candidate_in_snapshot snapshot c :
  candidate snapshot = Some c -> In c (sessions snapshot).
Proof. unfold candidate. intros H. now apply find_some in H. Qed.

(** One run of the adoption effect, case by case. *)
Lemma adoption_effect_cases d snapshot r :
  adoption_deps_ready d = true ->
  match candidate snapshot with
  | Some c =>
      (activeSessionRef r = Some (id c) /\ adoption_effect d snapshot r = (r, []))
      \/ (activeSessionRef r <> Some (id c) /\
          adoption_effect d snapshot r
          = (set_activeSessionRef (Some (id c)) r,
             [Nip46.adoptSigner (Some (Nip46DelegatedSigner (id c)))]))
  | None =>
      (truthy_string (activeSessionRef r) = false /\ adoption_effect d snapshot r = (r, []))
      \/ (truthy_string (activeSessionRef r) = true /\
          adoption_effect d snapshot r
          = (set_activeSessionRef None r, [Nip46.adoptSigner None]))
  end.
Proof.
  intros Hd. unfold adoption_effect. rewrite Hd. simpl.
  destruct (candidate snapshot) as [c|].
  - case_bool_decide as Heq; [left | right]; split; congruence.
  - destruct (truthy_string (activeSessionRef r)); [right | left]; split; reflexivity.
Qed.

Lemma adoption_effect_not_ready d snapshot r :
  adoption_deps_ready d = false -> adoption_effect d snapshot r = (r, []).
Proof. intros Hd. unfold adoption_effect. now rewrite Hd. Qed.

(** A run of the adoption effect in the world, case by case: the calls, and
    the world when the calls have returned. *)
Lemma adoption_run_cases d snapshot (w : World) :
  adoption_deps_ready d = true ->
  match candidate snapshot with
  | Some c =>
      (activeSessionRef (refs w) = Some (id c)
       /\ snd (adoption_effect d snapshot (refs w)) = []
       /\ world_step w (AdoptionRun d snapshot) = w)
      \/ (activeSessionRef (refs w) <> Some (id c)
          /\ snd (adoption_effect d snapshot (refs w))
             = [Nip46.adoptSigner (Some (Nip46DelegatedSigner (id c)))]
          /\ world_step w (AdoptionRun d snapshot)
             = {| refs := set_activeSessionRef (Some (id c)) (refs w);
                  signer := signer w;
                  adopting := adopting w ++ [Nip46DelegatedSigner (id c)] |})
  | None =>
      (truthy_string (activeSessionRef (refs w)) = false
       /\ snd (adoption_effect d snapshot (refs w)) = []
       /\ world_step w (AdoptionRun d snapshot) = w)
      \/ (truthy_string (activeSessionRef (refs w)) = true
          /\ snd (adoption_effect d snapshot (refs w)) = [Nip46.adoptSigner None]
          /\ world_step w (AdoptionRun d snapshot)
             = {| refs := set_activeSessionRef None (refs w);
                  signer := None; adopting := adopting w |})
  end.
Proof.
  intros Hd. pose proof (adoption_effect_cases d snapshot (refs w) Hd) as H.
  destruct w as [r sg pending]. simpl in *.
  destruct (candidate snapshot) as [c|];
    destruct H as [(Href & Heff)|(Href & Heff)]; [left | right | left | right];
    (split; [exact Href|]); rewrite Heff; split; reflexivity.
Qed.

Lemma adoption_run_not_ready d snapshot (w : World) :
  adoption_deps_ready d = false ->
  snd (adoption_effect d snapshot (refs w)) = []
  /\ world_step w (AdoptionRun d snapshot) = w.
Proof.
  intros Hd. destruct w as [r sg pending]. simpl.
  rewrite (adoption_effect_not_ready d snapshot r Hd). split; reflexivity.
Qed.

Lemma signer_of_ref_id (r : Refs) (sessionId : string) :
  signer_of_ref r = Some (Nip46DelegatedSigner sessionId)
  <-> activeSessionRef r = Some sessionId.
Proof.
  unfold signer_of_ref. destruct (activeSessionRef r) as [current|]; simpl.
  - split; intros [= ->]; reflexivity.
  - split; discriminate.
Qed.

Lemma quiescent_truthy (w : World) :
  quiescent w ->
  truthy_string (activeSessionRef (refs w)) = true <-> signer w <> None.
Proof.
  intros (_ & Hsigner & Hwf). rewrite Hsigner. unfold signer_of_ref.
  destruct (activeSessionRef (refs w)) as [current|] eqn:Href; simpl.
  - split; [discriminate|]. intros _.
    apply negb_true_iff, String.eqb_neq. now apply Hwf.
  - split; [discriminate | congruence].
Qed.

(** A snapshot change whose call completes, no call being pending. *)
Lemma change_cases d snapshot env (w : World) :
  adopting w = [] -> completes env -> adoption_deps_ready d = true ->
  match candidate snapshot with
  | Some c =>
      (activeSessionRef (refs w) = Some (id c) /\ change w (d, snapshot, env) = w)
      \/ (activeSessionRef (refs w) <> Some (id c)
          /\ change w (d, snapshot, env)
             = {| refs := set_activeSessionRef (Some (id c)) (refs w);
                  signer := Some (Nip46DelegatedSigner (id c));
                  adopting := [] |})
  | None =>
      (truthy_string (activeSessionRef (refs w)) = false
       /\ change w (d, snapshot, env) = w)
      \/ (truthy_string (activeSessionRef (refs w)) = true
          /\ change w (d, snapshot, env)
             = {| refs := set_activeSessionRef None (refs w);
                  signer := None; adopting := [] |})
  end.
Proof.
  intros Hpending (Hconn & Huser) Hd.
  pose proof (adoption_run_cases d snapshot w Hd) as H.
  assert (change w (d, snapshot, env)
          = world_run (world_step w (AdoptionRun d snapshot))
              (flat_map (settle_call env) (snd (adoption_effect d snapshot (refs w)))))
    as Hunfold by reflexivity.
  destruct (candidate snapshot) as [c|];
    destruct H as [(Href & Hcalls & Hstep)|(Href & Hcalls & Hstep)];
    [left | right | left | right];
    (split; [exact Href|]); rewrite Hunfold, Hcalls, Hstep;
    cbn [flat_map settle_call app world_run fold_left]; try reflexivity.
  - rewrite Hpending. unfold world_step. simpl.
    rewrite bool_decide_eq_true_2 by (apply list_elem_of_singleton; reflexivity).
    unfold adoptSigner_resume. rewrite Hconn, Huser. simpl.
    rewrite bool_decide_eq_true_2 by reflexivity. reflexivity.
  - rewrite Hpending. reflexivity.
Qed.

Lemma change_quiescent d snapshot env (w : World) :
  quiescent w -> orderly (d, snapshot, env) ->
  quiescent (change w (d, snapshot, env)).
Proof.
  intros Hq (Hids & Henv). simpl in Hids, Henv.
  destruct (adoption_deps_ready d) eqn:Hd.
  - pose proof (change_cases d snapshot env w (proj1 Hq) Henv Hd) as H.
    destruct (candidate snapshot) as [c|] eqn:Hcand;
      destruct H as [(_ & ->)|(_ & ->)]; try exact Hq.
    + split; [reflexivity|]. split; [reflexivity|].
      intros current [= <-]. apply candidate_in_snapshot in Hcand.
      exact (proj1 (List.Forall_forall _ _) Hids c Hcand).
    + split; [reflexivity|]. split; [reflexivity|]. intros current [=].
  - destruct (adoption_run_not_ready d snapshot w Hd) as (Hcalls & Hstep).
    assert (change w (d, snapshot, env)
            = world_run (world_step w (AdoptionRun d snapshot))
                (flat_map (settle_call env) (snd (adoption_effect d snapshot (refs w)))))
      as Hunfold by reflexivity.
    rewrite Hunfold, Hcalls, Hstep. exact Hq.
Qed.

Lemma changes_quiescent (cs : list (Deps * SessionSnapshot * adopt_env)) :
  forall w, quiescent w -> Forall orderly cs -> quiescent (changes w cs).
Proof.
  induction cs as [|[[d snapshot] env] cs IH]; intros w Hq Hall; [exact Hq|].
  inversion Hall as [|c l Hc Hrest]; subst c l.
  simpl. apply IH; [|exact Hrest]. now apply change_quiescent.
Qed.

(** The history of the scenario leaves the signer of S1 in the context,
    with the ref reset and no call pending; the next run of the adoption
    effect on a snapshot without candidate then makes no call. *)
Lemma rejected_swap_keeps_signer :
  ~ cleared_exactly_once (world_run initial_world rejected_swap) all_ready defaultSnapshot.
Proof.
  intros H.
  assert (signer (world_run initial_world rejected_swap)
          = Some (Nip46DelegatedSigner "S1")) as Hsigner by (vm_compute; reflexivity).
  destruct H as (Hcalls & _); [reflexivity | rewrite Hsigner; discriminate|].
  vm_compute in Hcalls. discriminate Hcalls.
Qed.

(** C4, as amended. First part: across every sequence of snapshot changes
    in which each call of adoptSigner completes before the next change
    (session ids not empty, the provider being the only caller), no call is
    pending between changes and the signer that the NDK context holds is
    the one of the session named by the ref of the provider, so that at
    most one session is adopted. One more change then makes at most one
    call: none when the candidate is the adopted session, or when there is
    neither candidate nor adopted session; exactly one adoptSigner(null),
    which clears the signer during the call, when the candidate is absent
    while a session is adopted; exactly one adoptSigner for the candidate,
    after which the context holds its signer, when the candidate is another
    session. Evaluating the same snapshot again changes nothing.
    Second part: after every history whatever (calls rejected, pending or
    settling late, runs of the reconnection loop in between), a run of the
    adoption effect makes at most one call, decided in the same way against
    the session id that the ref records; a clear takes effect during the
    call, and a swap when its call completes. *)
Theorem adoption_swaps_exactly_once
  (cs : list (Deps * SessionSnapshot * adopt_env)) (history : list WorldEvent)
  (d : Deps) (snapshot : SessionSnapshot) (env : adopt_env) :
  adoption_deps_ready d = true ->
  Forall orderly cs ->
  completes env ->
  (let w := changes initial_world cs in
   let calls := snd (adoption_effect d snapshot (refs w)) in
   let w' := change w (d, snapshot, env) in
   adopting w = [] /\ signer w = signer_of_ref (refs w)
   /\ (length calls <= 1)%nat
   /\ (forall c, candidate snapshot = Some c ->
         signer w = Some (Nip46DelegatedSigner (id c)) -> calls = [] /\ w' = w)
   /\ (candidate snapshot = None -> signer w = None -> calls = [] /\ w' = w)
   /\ (candidate snapshot = None -> signer w <> None ->
         calls = [Nip46.adoptSigner None]
         /\ signer (world_step w (AdoptionRun d snapshot)) = None
         /\ signer w' = None /\ activeSessionRef (refs w') = None)
   /\ (forall c, candidate snapshot = Some c ->
         signer w <> Some (Nip46DelegatedSigner (id c)) ->
         calls = [Nip46.adoptSigner (Some (Nip46DelegatedSigner (id c)))]
         /\ signer w' = Some (Nip46DelegatedSigner (id c))
         /\ activeSessionRef (refs w') = Some (id c))
   /\ adopting w' = [] /\ signer w' = signer_of_ref (refs w')
   /\ change w' (d, snapshot, env) = w')
  /\ (let w := world_run initial_world history in
      let calls := snd (adoption_effect d snapshot (refs w)) in
      let w' := world_step w (AdoptionRun d snapshot) in
      (length calls <= 1)%nat
      /\ (forall c, candidate snapshot = Some c ->
            activeSessionRef (refs w) = Some (id c) -> calls = [] /\ w' = w)
      /\ (candidate snapshot = None -> is_blank (activeSessionRef (refs w)) ->
            calls = [] /\ w' = w)
      /\ (candidate snapshot = None -> is_set (activeSessionRef (refs w)) ->
            calls = [Nip46.adoptSigner None]
            /\ activeSessionRef (refs w') = None
            /\ signer w' = None /\ adopting w' = adopting w)
      /\ (forall c, candidate snapshot = Some c ->
            activeSessionRef (refs w) <> Some (id c) ->
            calls = [Nip46.adoptSigner (Some (Nip46DelegatedSigner (id c)))]
            /\ activeSessionRef (refs w') = Some (id c)
            /\ signer w' = signer w
            /\ adopting w' = adopting w ++ [Nip46DelegatedSigner (id c)]
            /\ signer (world_step w' (AdoptSettled (Nip46DelegatedSigner (id c)) env))
               = Some (Nip46DelegatedSigner (id c)))
      /\ snd (adoption_effect d snapshot (refs w')) = []).
Proof.
  intros Hd Hcs Henv. split.
  - intros w calls w'.
    assert (quiescent initial_world) as Hq0.
    { split; [reflexivity|]. split; [reflexivity|]. intros current [=]. }
    pose proof (changes_quiescent cs initial_world Hq0 Hcs) as Hq. fold w in Hq.
    pose proof (quiescent_truthy w Hq) as Htruthy.
    destruct Hq as (Hpending & Hsigner & Hwf).
    assert (quiescent w) as Hq by (split; [|split]; assumption).
    pose proof (adoption_run_cases d snapshot w Hd) as Hrun.
    pose proof (change_cases d snapshot env w Hpending Henv Hd) as Hchange.
    fold calls in Hrun. fold w' in Hchange.
    split; [exact Hpending|]. split; [exact Hsigner|].
    destruct (candidate snapshot) as [c|] eqn:Hcand.
    + destruct Hrun as [(Href & Hcalls & Hstep)|(Href & Hcalls & Hstep)];
        destruct Hchange as [(Href' & Hw')|(Href' & Hw')]; try contradiction.
      * rewrite Hcalls. split; [simpl; lia|].
        split; [intros c' [= <-] _; now split|].
        split; [discriminate|]. split; [discriminate|].
        split.
        { intros c' [= <-] Hne. exfalso. apply Hne. rewrite Hsigner.
          now apply signer_of_ref_id. }
        rewrite Hw'. split; [exact Hpending|]. split; [exact Hsigner|].
        pose proof (change_cases d snapshot env w Hpending Henv Hd) as Hagain.
        rewrite Hcand in Hagain.
        destruct Hagain as [(_ & H)|(H & _)]; [exact H | contradiction].
      * rewrite Hcalls. split; [simpl; lia|].
        split.
        { intros c' [= <-] Heq. exfalso. apply Href.
          apply signer_of_ref_id. now rewrite <- Hsigner. }
        split; [discriminate|]. split; [discriminate|].
        split.
        { intros c' [= <-] _. split; [reflexivity|]. rewrite Hw'. now split. }
        rewrite Hw'. split; [reflexivity|]. split; [reflexivity|].
        rewrite <- Hw'.
        assert (adopting w' = []) as Hq' by (rewrite Hw'; reflexivity).
        pose proof (change_cases d snapshot env w' Hq' Henv Hd) as Hagain.
        rewrite Hcand in Hagain.
        destruct Hagain as [(_ & H)|(H & _)]; [exact H|].
        exfalso. apply H. rewrite Hw'. reflexivity.
    + destruct Hrun as [(Href & Hcalls & Hstep)|(Href & Hcalls & Hstep)];
        destruct Hchange as [(Href' & Hw')|(Href' & Hw')]; try congruence.
      * rewrite Hcalls. split; [simpl; lia|].
        split; [discriminate|].
        split; [intros _ _; now split|].
        split.
        { intros _ Hne. apply Htruthy in Hne. congruence. }
        split; [discriminate|].
        rewrite Hw'. split; [exact Hpending|]. split; [exact Hsigner|].
        pose proof (change_cases d snapshot env w Hpending Henv Hd) as Hagain.
        rewrite Hcand in Hagain.
        destruct Hagain as [(_ & H)|(H & _)]; [exact H | congruence].
      * rewrite Hcalls. split; [simpl; lia|].
        split; [discriminate|].
        split.
        { intros _ Hnone. exfalso. apply (proj1 Htruthy Href). exact Hnone. }
        split.
        { intros _ _. split; [reflexivity|]. rewrite Hstep, Hw'. simpl. auto. }
        split; [discriminate|].
        rewrite Hw'. split; [reflexivity|]. split; [reflexivity|].
        rewrite <- Hw'.
        assert (adopting w' = []) as Hq' by (rewrite Hw'; reflexivity).
        pose proof (change_cases d snapshot env w' Hq' Henv Hd) as Hagain.
        rewrite Hcand in Hagain.
        destruct Hagain as [(_ & H)|(H & _)]; [exact H|].
        rewrite Hw' in H. discriminate H.
  - intros w calls w'.
    pose proof (adoption_run_cases d snapshot w Hd) as Hrun.
    fold calls in Hrun. fold w' in Hrun.
    destruct (candidate snapshot) as [c|] eqn:Hcand.
    + destruct Hrun as [(Href & Hcalls & Hstep)|(Href & Hcalls & Hstep)].
      * rewrite Hcalls, Hstep. split; [simpl; lia|].
        split; [intros c' [= <-] _; now split|].
        split; [discriminate|]. split; [discriminate|].
        split; [intros c' [= <-] Hne; contradiction|].
        pose proof (adoption_effect_cases d snapshot (refs w) Hd) as H.
        rewrite Hcand in H. destruct H as [(_ & ->)|(H & _)];
          [reflexivity | contradiction].
      * rewrite Hcalls, Hstep. split; [simpl; lia|].
        split; [intros c' [= <-] Heq; contradiction|].
        split; [discriminate|]. split; [discriminate|].
        split.
        { intros c' [= <-] _. split; [reflexivity|]. split; [reflexivity|].
          split; [reflexivity|]. split; [reflexivity|].
          destruct Henv as (Hconn & Huser). unfold world_step. simpl.
          rewrite bool_decide_eq_true_2
            by (apply elem_of_app; right; apply list_elem_of_singleton; reflexivity).
          unfold adoptSigner_resume. rewrite Hconn, Huser. reflexivity. }
        simpl. unfold adoption_effect. rewrite Hd, Hcand. simpl.
        rewrite bool_decide_eq_true_2; reflexivity.
    + destruct Hrun as [(Href & Hcalls & Hstep)|(Href & Hcalls & Hstep)].
      * rewrite Hcalls, Hstep. split; [simpl; lia|].
        split; [discriminate|].
        split; [intros _ _; now split|].
        split.
        { intros _ Hset. apply truthy_string_true in Hset. congruence. }
        split; [discriminate|].
        pose proof (adoption_effect_cases d snapshot (refs w) Hd) as H.
        rewrite Hcand in H. destruct H as [(_ & ->)|(H & _)];
          [reflexivity | congruence].
      * rewrite Hcalls, Hstep. split; [simpl; lia|].
        split; [discriminate|].
        split.
        { intros _ Hblank. apply truthy_string_false in Hblank. congruence. }
        split; [intros _ _; auto|].
        split; [discriminate|].
        simpl. unfold adoption_effect. rewrite Hd, Hcand. reflexivity.
Qed.

(** S1 is adopted and its adoption completes; then the snapshot becomes
    empty: the signer is cleared by one call. *)
Lemma adoption_swaps_exactly_once_clear :
  let w := changes initial_world [(all_ready, only_S1, adopt_ok)] in
  signer w = Some (Nip46DelegatedSigner "S1")
  /\ snd (adoption_effect all_ready defaultSnapshot (refs w)) = [Nip46.adoptSigner None]
  /\ signer (world_step w (AdoptionRun all_ready defaultSnapshot)) = None.
Proof.
  intros w.
  assert (signer w = Some (Nip46DelegatedSigner "S1")) as Hsigner
    by (vm_compute; reflexivity).
  assert (Forall orderly [(all_ready, only_S1, adopt_ok)]) as Hcs.
  { constructor; [|constructor]. split; [|split; reflexivity].
    simpl. unfold ids_nonempty. simpl. repeat constructor. discriminate. }
  destruct (adoption_swaps_exactly_once [(all_ready, only_S1, adopt_ok)] []
              all_ready defaultSnapshot adopt_ok eq_refl Hcs
              (conj eq_refl eq_refl))
    as ((_ & _ & _ & _ & _ & Hclear & _) & _).
  split; [exact Hsigner|].
  destruct Hclear as (Hcalls & Hnow & _); [reflexivity | |].
  - fold w. rewrite Hsigner. discriminate.
  - split; [exact Hcalls | exact Hnow].
Defined.

End AdoptionSwap.

(** ** The transport used before the NDK instance exists *)

Section MissingTransport.
Import Nip46.

(** C7: on the transport without configuration, publish rejects at once
    with an error, whatever is published, and changes nothing; subscribe
    does not throw, whatever the filter and the handler: it returns an
    unsubscribe handle, registers nothing, and the handle does nothing when
    it is called. *)
Theorem missing_transport_fails_fast {Envelope Filter World : Type}
  (envelope : Envelope) (filter : Filter) (handler : Envelope -> World -> World)
  (w : World) :
  publish (@missingTransport Envelope Filter World) envelope w
  = (Rejected (Error "NIP-46 transport is not configured"), w)
  /\ exists unsubscribe,
       subscribe (@missingTransport Envelope Filter World) filter handler w
       = (Normal unsubscribe, w)
       /\ forall w', unsubscribe w' = (Normal tt, w').
Proof.
  split.
  - unfold missingTransport. simpl. reflexivity.
  - eexists. split.
    + unfold missingTransport. simpl. reflexivity.
    + intros w'. reflexivity.
Qed.

End MissingTransport.

(** ** The storage adapters *)

Section CloneSnapshot.
Import Storage.

Lemma structuredClone_id : forall v, structuredClone v = v.
Proof.
  fix IH 1. intros [ | b | n | s | items | props]; simpl; try reflexivity.
  - f_equal. induction items as [|x xs IHxs]; simpl; [reflexivity|].
    rewrite IH, IHxs. reflexivity.
  - f_equal. induction props as [|[k x] ps IHps]; simpl; [reflexivity|].
    rewrite IH, IHps. reflexivity.
Qed.

Lemma json_roundtrip_id : forall v, json_roundtrip v = v.
Proof.
  fix IH 1. intros [ | b | n | s | items | props]; simpl; try reflexivity.
  - f_equal. induction items as [|x xs IHxs]; simpl; [reflexivity|].
    rewrite IH, IHxs. reflexivity.
  - f_equal. induction props as [|[k x] ps IHps]; simpl; [reflexivity|].
    rewrite IH, IHps. reflexivity.
Qed.

Lemma cloneSnapshot_id flag v : cloneSnapshot flag v = v.
Proof.
  unfold cloneSnapshot. destruct flag; [apply structuredClone_id | apply json_roundtrip_id].
Qed.

(** C9: on the in-memory adapter, whichever way cloneSnapshot copies, save
    of a snapshot followed by load resolves to a snapshot equal to the
    saved one, with the same sessions list and the same activeSessionId. *)
Theorem memory_adapter_round_trip (has_structuredClone : bool)
  (sessions : list json) (activeSessionId : option string)
  (a : MemoryStorageAdapter.t) :
  let s := mk_snapshot sessions activeSessionId in
  let a' := snd (MemoryStorageAdapter.save has_structuredClone s a) in
  fst (MemoryStorageAdapter.save has_structuredClone s a) = Resolved tt
  /\ exists s',
       MemoryStorageAdapter.load has_structuredClone a' = Resolved (Some s')
       /\ s' = s
       /\ get_prop "sessions" s' = Some (JArray sessions)
       /\ get_prop "activeSessionId" s'
          = Some (match activeSessionId with Some i => JString i | None => JNull end).
Proof.
  intros s a'. split; [reflexivity|].
  exists s. split; [|split; [reflexivity|split; reflexivity]].
  subst a'. unfold MemoryStorageAdapter.load, MemoryStorageAdapter.save. simpl.
  rewrite !cloneSnapshot_id. reflexivity.
Qed.

End CloneSnapshot.

Section LocalStorage.
Import Storage Storage.LocalStorageAdapter.

Variable JSON_parse : string -> completion json.
Variable JSON_stringify : json -> string.

Lemma load_some_shape (env : load_env) (v : json) :
  load JSON_parse env = Resolved (Some v) ->
  (exists text, getItem env = Normal (Some text) /\ JSON_parse text = Normal v)
  /\ is_object v /\ exists items, get_prop "sessions" v = Some (JArray items).
Proof.
  unfold load, load_try.
  destruct (load_window env); simpl; [|discriminate].
  destruct (getItem env) as [[text|]|e]; simpl; try discriminate.
  destruct (String.eqb text ""); simpl; [discriminate|].
  destruct (JSON_parse text) as [parsed|e] eqn:Hparse; simpl; [|discriminate].
  destruct (truthy parsed); simpl; [|discriminate].
  destruct (typeof_object parsed); simpl; [|discriminate].
  destruct (isArray (get_prop "sessions" parsed)) eqn:Harr; simpl; [|discriminate].
  intros [= <-].
  split; [now exists text|].
  unfold isArray in Harr.
  destruct (get_prop "sessions" parsed) as [[ | | | |items| ]|] eqn:Hget;
    try discriminate.
  split; [|now exists items].
  destruct parsed as [ | | | | |props]; try discriminate Hget. now exists props.
Qed.

Lemma load_settles (env : load_env) :
  exists result, load JSON_parse env = Resolved result.
Proof.
  unfold load. destruct (load_window env); simpl; [|now eexists].
  destruct (load_try JSON_parse env) as [result|e|] eqn:H; simpl; try now eexists.
  exfalso. revert H. unfold load_try, mbind, outcome_bind, await, call.
  destruct (getItem env) as [[text|]|e]; try discriminate.
  destruct (negb (truthy_string (Some text))); [discriminate|].
  destruct (JSON_parse text) as [parsed|e]; [|discriminate].
  destruct (negb (truthy parsed) || negb (typeof_object parsed)); [discriminate|].
  destruct (negb (isArray (get_prop "sessions" parsed))); discriminate.
Qed.

Lemma save_blocked_skips (s : json) (env : save_env) (a : t) :
  blocked a = true ->
  now env - lastBlockedTime a <= RETRY_INTERVAL_MS ->
  save JSON_stringify s env a = (Resolved tt, a, []).
Proof.
  intros Hb Hnow. unfold save.
  destruct (save_window env); simpl; [|reflexivity].
  rewrite Hb. simpl.
  replace (now env - lastBlockedTime a >? RETRY_INTERVAL_MS) with false
    by (symmetry; rewrite Z.gtb_ltb; now apply Z.ltb_ge).
  rewrite Hb. reflexivity.
Qed.

Lemma saves_blocked_skip (calls : list (json * save_env)) (a : t) :
  blocked a = true ->
  Forall (fun c => now (snd c) - lastBlockedTime a <= RETRY_INTERVAL_MS) calls ->
  saves JSON_stringify calls a = (a, []).
Proof.
  intros Hb. induction calls as [|[s env] calls IH]; intros Hall; simpl; [reflexivity|].
  inversion Hall as [|c l Hc Hrest]; subst c l. simpl in Hc.
  rewrite (save_blocked_skips s env a Hb Hc), (IH Hrest). reflexivity.
Qed.

Lemma save_writes_when_open (s : json) (env : save_env) (a : t) :
  save_window env = true ->
  blocked a = false \/ RETRY_INTERVAL_MS < now env - lastBlockedTime a ->
  writes (snd (save JSON_stringify s env a)) = [setItem STORAGE_KEY (JSON_stringify s)].
Proof.
  intros Hw Hopen. unfold save. rewrite Hw. simpl.
  assert (blocked (if blocked a && (now env - lastBlockedTime a >? RETRY_INTERVAL_MS)
                   then {| blocked := false; lastBlockedTime := lastBlockedTime a |}
                   else a) = false) as Hb1.
  { destruct (blocked a) eqn:Hb; simpl; [|exact Hb].
    destruct Hopen as [Hopen|Hopen]; [discriminate|].
    replace (now env - lastBlockedTime a >? RETRY_INTERVAL_MS) with true
      by (symmetry; rewrite Z.gtb_ltb; now apply Z.ltb_lt).
    reflexivity. }
  rewrite Hb1. unfold save_try.
  destruct (setItem_throws env) as [error|]; [|reflexivity].
  unfold save_catch. destruct (isQuotaExceededError error); reflexivity.
Qed.

(** The write was attempted only if the adapter was open for it, and the
    state afterwards is decided by how [setItem] ended. *)
Lemma save_attempted (s : json) (env : save_env) (a : t) :
  writes (snd (save JSON_stringify s env a)) <> [] ->
  save_window env = true
  /\ (blocked a = false \/ RETRY_INTERVAL_MS < now env - lastBlockedTime a)
  /\ blocked (snd (fst (save JSON_stringify s env a)))
     = match setItem_throws env with
       | Some error => isQuotaExceededError error
       | None => false
       end
  /\ (forall error, setItem_throws env = Some error ->
                    isQuotaExceededError error = true ->
                    snd (fst (save JSON_stringify s env a))
                    = {| blocked := true; lastBlockedTime := now_in_catch env |}).
Proof.
  unfold save. destruct (save_window env); simpl; [|congruence].
  destruct (blocked a) eqn:Hb; simpl.
  - destruct (now env - lastBlockedTime a >? RETRY_INTERVAL_MS) eqn:Hgt; simpl.
    + intros _. split; [reflexivity|]. split.
      { right. rewrite Z.gtb_ltb in Hgt. now apply Z.ltb_lt. }
      unfold save_try. simpl.
      destruct (setItem_throws env) as [error|]; simpl.
      * unfold save_catch. destruct (isQuotaExceededError error) eqn:Hq; simpl.
        -- split; [reflexivity|]. intros error' [= <-] _. reflexivity.
        -- split; [reflexivity|]. intros error' [= <-]. congruence.
      * split; [destruct (lastBlockedTime a >? 0); reflexivity|]. discriminate.
    + rewrite Hb. simpl. congruence.
  - rewrite Hb. intros _. split; [reflexivity|]. split; [now left|].
    unfold save_try.
    destruct (setItem_throws env) as [error|]; simpl.
    + unfold save_catch. destruct (isQuotaExceededError error) eqn:Hq; simpl.
      * split; [reflexivity|]. intros error' [= <-] _. reflexivity.
      * split; [exact Hb|]. intros error' [= <-]. congruence.
    + split; [destruct (lastBlockedTime a >? 0); simpl; exact Hb || reflexivity|].
      discriminate.
Qed.

Lemma save_settles (s : json) (env : save_env) (a : t) :
  fst (fst (save JSON_stringify s env a)) = Resolved tt.
Proof.
  unfold save. destruct (save_window env); simpl; [|reflexivity].
  destruct (blocked (if blocked a && (now env - lastBlockedTime a >? RETRY_INTERVAL_MS)
                     then {| blocked := false; lastBlockedTime := lastBlockedTime a |}
                     else a)); [reflexivity|].
  unfold save_try. destruct (setItem_throws env) as [error|]; [|reflexivity].
  unfold save_catch. destruct (isQuotaExceededError error); reflexivity.
Qed.

End LocalStorage.

Section LocalStorageClaims.
Import Storage Storage.LocalStorageAdapter.

(** C8: when the stored text parses to a value that is not an object, or
    to one whose sessions field is not a list, load of the localStorage
    adapter resolves to null. *)
Theorem load_ignores_malformed_payload (JSON_parse : string -> completion json)
  (env : load_env) (text : string) (parsed : json) :
  getItem env = Normal (Some text) ->
  JSON_parse text = Normal parsed ->
  malformed parsed ->
  load JSON_parse env = Resolved None.
Proof.
  intros Hget Hparse Hbad.
  destruct (load_settles JSON_parse env) as [[v|] Hload]; [|exact Hload].
  exfalso.
  destruct (load_some_shape JSON_parse env v Hload)
    as ((text' & Hget' & Hparse') & Hobj & items & Hitems).
  rewrite Hget in Hget'. injection Hget' as <-.
  rewrite Hparse in Hparse'. injection Hparse' as <-.
  destruct Hbad as [Hbad|Hbad].
  - contradiction.
  - exact (Hbad items Hitems).
Qed.

(** The stored text is an array: it parses, it is no object, and load
    answers null. *)
Lemma load_ignores_stored_array :
  load parse_literals stored_array = Resolved None.
Proof.
  apply (load_ignores_malformed_payload parse_literals stored_array
           "[]"%string (JArray [])).
  - reflexivity.
  - reflexivity.
  - left. intros (props & Heq). discriminate Heq.
Defined.

Lemma quota_failure_blocks (JSON_stringify : json -> string) (snapshot : json)
  (env0 : save_env) (a0 : t) :
  quota_failure JSON_stringify snapshot env0 a0 ->
  snd (fst (save JSON_stringify snapshot env0 a0))
  = {| blocked := true; lastBlockedTime := now_in_catch env0 |}.
Proof.
  intros (Hwrite & error & Hthrow & Hquota).
  destruct (save_attempted JSON_stringify snapshot env0 a0 Hwrite) as (_ & _ & _ & H).
  exact (H error Hthrow Hquota).
Qed.

(** C5, as the specification states it, fails at the boundary: a save
    issued exactly 60 seconds (60000 ms) after the quota failure is still
    skipped, because the adapter retries only once more than 60000 ms have
    passed. *)
Lemma save_skipped_at_60_seconds :
  ~ retries_from_60_seconds stringify_stub empty_snapshot
      (save_at 1000000 (Some QuotaExceededError)) init
      empty_snapshot (save_at 1060000 None).
Proof.
  intros H. apply H.
  - split; [vm_compute; discriminate|].
    exists QuotaExceededError. split; reflexivity.
  - reflexivity.
  - vm_compute. discriminate.
  - vm_compute. reflexivity.
Qed.

(** C5 (amended): after a save on the localStorage adapter ran into the
    quota at time t0 (Date.now() in the handler), every later save whose
    Date.now() is at most t0 + 60000 ms returns without a write and leaves
    the adapter as it is; a save issued more than 60000 ms after t0, where
    window exists, attempts the write again. *)
Theorem save_skipped_until_cooldown_over (JSON_stringify : json -> string)
  (snapshot : json) (env0 : save_env) (a0 : t)
  (calls : list (json * save_env)) (s : json) (env : save_env) :
  quota_failure JSON_stringify snapshot env0 a0 ->
  Forall (fun c => now (snd c) - now_in_catch env0 <= RETRY_INTERVAL_MS) calls ->
  save_window env = true ->
  RETRY_INTERVAL_MS < now env - now_in_catch env0 ->
  let a1 := snd (fst (save JSON_stringify snapshot env0 a0)) in
  let a2 := fst (saves JSON_stringify calls a1) in
  writes (snd (saves JSON_stringify calls a1)) = []
  /\ a2 = a1
  /\ writes (snd (save JSON_stringify s env a2))
     = [setItem STORAGE_KEY (JSON_stringify s)].
Proof.
  intros Hfail Hcalls Hwin Hlate a1 a2.
  pose proof (quota_failure_blocks JSON_stringify snapshot env0 a0 Hfail) as Ha1.
  fold a1 in Ha1.
  assert (saves JSON_stringify calls a1 = (a1, [])) as Hskip.
  { apply saves_blocked_skip.
    - rewrite Ha1. reflexivity.
    - rewrite Ha1. simpl. exact Hcalls. }
  subst a2. rewrite Hskip. simpl.
  split; [reflexivity|]. split; [reflexivity|].
  apply save_writes_when_open; [exact Hwin|].
  right. rewrite Ha1. simpl. exact Hlate.
Qed.

(** The quota is hit at time 1000000; saves at 1000001 and at 1060000 are
    skipped, and the save at 1060001 writes again. *)
Lemma save_skipped_until_cooldown_over_example :
  let a1 := snd (fst (save stringify_stub empty_snapshot
                        (save_at 1000000 (Some QuotaExceededError)) init)) in
  let calls := [(empty_snapshot, save_at 1000001 None);
                (empty_snapshot, save_at 1060000 None)] in
  let a2 := fst (saves stringify_stub calls a1) in
  writes (snd (saves stringify_stub calls a1)) = []
  /\ a2 = a1
  /\ writes (snd (save stringify_stub empty_snapshot (save_at 1060001 None) a2))
     = [setItem STORAGE_KEY (stringify_stub empty_snapshot)].
Proof.
  apply (save_skipped_until_cooldown_over stringify_stub empty_snapshot
           (save_at 1000000 (Some QuotaExceededError)) init).
  - split; [vm_compute; discriminate|].
    exists QuotaExceededError. split; reflexivity.
  - repeat constructor; vm_compute; discriminate.
  - reflexivity.
  - vm_compute. reflexivity.
Defined.

Lemma isQuotaExceededError_spec (error : thrown) :
  isQuotaExceededError error = true <->
  exists name code,
    error = DOMException name code /\
    (name = "QuotaExceededError"%string \/ code = 22 \/
     name = "NS_ERROR_DOM_QUOTA_REACHED"%string).
Proof.
  destruct error as [name code|message]; simpl.
  - rewrite !orb_true_iff, !String.eqb_eq, Z.eqb_eq. split.
    + intros H. exists name, code. split; [reflexivity | tauto].
    + intros (name' & code' & [= <- <-] & H). tauto.
  - split; [discriminate|]. intros (name & code & [=] & _).
Qed.

(** C10: a save on the localStorage adapter leaves the adapter blocked only
    if it was blocked before, or the write was attempted and setItem threw
    a DOMException named QuotaExceededError, with code 22, or named
    NS_ERROR_DOM_QUOTA_REACHED; when the write fails with any other error,
    the adapter is not blocked afterwards and the very next save (window
    existing) attempts the write. *)
Theorem blocked_only_by_quota_error (JSON_stringify : json -> string)
  (snapshot : json) (env : save_env) (a : t) :
  let a' := snd (fst (save JSON_stringify snapshot env a)) in
  let effects := snd (save JSON_stringify snapshot env a) in
  (blocked a' = true ->
   blocked a = true \/
   (writes effects <> [] /\
    exists name code,
      setItem_throws env = Some (DOMException name code) /\
      (name = "QuotaExceededError"%string \/ code = 22 \/
       name = "NS_ERROR_DOM_QUOTA_REACHED"%string)))
  /\ (forall error,
        writes effects <> [] ->
        setItem_throws env = Some error ->
        isQuotaExceededError error = false ->
        blocked a' = false /\
        forall s env',
          save_window env' = true ->
          writes (snd (save JSON_stringify s env' a'))
          = [setItem STORAGE_KEY (JSON_stringify s)]).
Proof.
  intros a' effects. split.
  - intros Hb'.
    destruct (blocked a) eqn:Hb; [now left | right].
    assert (writes effects <> []) as Hwrite.
    { subst effects a'. revert Hb'. unfold save.
      destruct (save_window env); simpl; [|congruence].
      rewrite Hb. simpl. rewrite Hb. unfold save_try.
      destruct (setItem_throws env) as [error|]; simpl.
      - unfold save_catch. destruct (isQuotaExceededError error); simpl; discriminate.
      - discriminate. }
    split; [exact Hwrite|].
    destruct (save_attempted JSON_stringify snapshot env a Hwrite) as (_ & _ & Hstate & _).
    fold a' in Hstate. rewrite Hb' in Hstate.
    destruct (setItem_throws env) as [error|]; [|discriminate].
    symmetry in Hstate. apply isQuotaExceededError_spec in Hstate.
    destruct Hstate as (name & code & -> & Hname). now exists name, code.
  - intros error Hwrite Hthrow Hother.
    destruct (save_attempted JSON_stringify snapshot env a Hwrite) as (_ & _ & Hstate & _).
    fold a' in Hstate. rewrite Hthrow, Hother in Hstate.
    split; [exact Hstate|].
    intros s env' Hwin. apply save_writes_when_open; [exact Hwin | now left].
Qed.

(** A save fails with a SecurityError: the adapter stays open, and the next
    save writes. *)
Lemma blocked_only_by_quota_error_example :
  let env := save_at 1000000 (Some SecurityError) in
  let a' := snd (fst (save stringify_stub empty_snapshot env init)) in
  blocked a' = false /\
  forall s env',
    save_window env' = true ->
    writes (snd (save stringify_stub s env' a')) = [setItem STORAGE_KEY (stringify_stub s)].
Proof.
  apply (proj2 (blocked_only_by_quota_error stringify_stub empty_snapshot
                  (save_at 1000000 (Some SecurityError)) init)
           SecurityError).
  - vm_compute. discriminate.
  - reflexivity.
  - reflexivity.
Defined.

End LocalStorageClaims.

Section AdaptersNeverReject.
Import Storage.

Lemma try_catch_never_rejects {A} (body : outcome A) (fallback : A) :
  never_rejects (try_catch body (fun _ => Resolved fallback)).
Proof. destruct body; simpl; exact I. Qed.

Lemma try_catch_absorbs {A} (body : outcome A) (fallback : A) (error : thrown) :
  body = Rejected error -> try_catch body (fun _ => Resolved fallback) = Resolved fallback.
Proof. intros ->. reflexivity. Qed.

Lemma indexedDb_load_never_rejects (e : IndexedDbStorageAdapter.env) :
  never_rejects (IndexedDbStorageAdapter.load e)
  /\ forall error,
       IndexedDbStorageAdapter.load_try e = Rejected error ->
       IndexedDbStorageAdapter.load e = Resolved None.
Proof.
  unfold IndexedDbStorageAdapter.load.
  destruct (IndexedDbStorageAdapter.indexedDB_defined e); simpl.
  - split; [apply try_catch_never_rejects|].
    intros error. apply try_catch_absorbs.
  - split; [exact I | reflexivity].
Qed.

Lemma indexedDb_save_never_rejects (s : json) (e : IndexedDbStorageAdapter.env) :
  never_rejects (IndexedDbStorageAdapter.save s e)
  /\ forall error,
       IndexedDbStorageAdapter.save_try s e = Rejected error ->
       IndexedDbStorageAdapter.save s e = Resolved tt.
Proof.
  unfold IndexedDbStorageAdapter.save.
  destruct (IndexedDbStorageAdapter.indexedDB_defined e); simpl.
  - split; [apply try_catch_never_rejects|].
    intros error. apply try_catch_absorbs.
  - split; [exact I | reflexivity].
Qed.

Lemma indexedDb_load_settles (e : IndexedDbStorageAdapter.env) :
  IndexedDbStorageAdapter.initialized e <> Pending ->
  IndexedDbStorageAdapter.openIndexedDb e <> Pending ->
  IndexedDbStorageAdapter.get_request e <> Pending ->
  IndexedDbStorageAdapter.tx_done e <> Pending ->
  exists result, IndexedDbStorageAdapter.load e = Resolved result.
Proof.
  intros Hi Ho Hg Ht. unfold IndexedDbStorageAdapter.load.
  destruct (IndexedDbStorageAdapter.indexedDB_defined e); simpl; [|now eexists].
  unfold IndexedDbStorageAdapter.load_try, mbind, outcome_bind, await, call.
  destruct (IndexedDbStorageAdapter.initialized e) as [[]|?|];
    [|now eexists|contradiction].
  destruct (IndexedDbStorageAdapter.openIndexedDb e) as [[]|?|];
    [|now eexists|contradiction].
  destruct (IndexedDbStorageAdapter.transaction e) as [[]|?]; [|now eexists].
  destruct (IndexedDbStorageAdapter.get_request e) as [record|?|];
    [|now eexists|contradiction].
  destruct (IndexedDbStorageAdapter.tx_done e) as [[]|?|];
    [|now eexists|contradiction].
  destruct record; now eexists.
Qed.

Lemma indexedDb_save_settles (s : json) (e : IndexedDbStorageAdapter.env) :
  IndexedDbStorageAdapter.initialized e <> Pending ->
  IndexedDbStorageAdapter.openIndexedDb e <> Pending ->
  IndexedDbStorageAdapter.put_request e <> Pending ->
  IndexedDbStorageAdapter.tx_done e <> Pending ->
  IndexedDbStorageAdapter.save s e = Resolved tt.
Proof.
  intros Hi Ho Hp Ht. unfold IndexedDbStorageAdapter.save.
  destruct (IndexedDbStorageAdapter.indexedDB_defined e); simpl; [|reflexivity].
  unfold IndexedDbStorageAdapter.save_try, mbind, outcome_bind, await, call.
  destruct (IndexedDbStorageAdapter.initialized e) as [[]|?|];
    [|reflexivity|contradiction].
  destruct (IndexedDbStorageAdapter.openIndexedDb e) as [[]|?|];
    [|reflexivity|contradiction].
  destruct (IndexedDbStorageAdapter.transaction e) as [[]|?]; [|reflexivity].
  destruct (IndexedDbStorageAdapter.put_request e) as [[]|?|];
    [|reflexivity|contradiction].
  destruct (IndexedDbStorageAdapter.tx_done e) as [[]|?|];
    [reflexivity|reflexivity|contradiction].
Qed.

(** C6: no adapter lets a failure reach the caller. On the localStorage
    adapter load always resolves, to null when reading or parsing throws,
    and save always resolves, whatever setItem throws. On the in-memory
    adapter load and save always resolve. On the IndexedDB adapter load and
    save never reject: when a step of the database rejects or throws, load
    resolves to null and save resolves, and both resolve whenever the
    promises of the database settle. Snapshots are plain JSON values. *)
Theorem storage_adapters_never_reject :
  (forall JSON_parse env,
     (exists result, LocalStorageAdapter.load JSON_parse env = Resolved result)
     /\ forall error,
          LocalStorageAdapter.load_try JSON_parse env = Rejected error ->
          LocalStorageAdapter.load JSON_parse env = Resolved None)
  /\ (forall JSON_stringify s env a,
        fst (fst (LocalStorageAdapter.save JSON_stringify s env a)) = Resolved tt)
  /\ (forall flag a, exists result, MemoryStorageAdapter.load flag a = Resolved result)
  /\ (forall flag s a, fst (MemoryStorageAdapter.save flag s a) = Resolved tt)
  /\ (forall e,
        never_rejects (IndexedDbStorageAdapter.load e)
        /\ forall error,
             IndexedDbStorageAdapter.load_try e = Rejected error ->
             IndexedDbStorageAdapter.load e = Resolved None)
  /\ (forall s e,
        never_rejects (IndexedDbStorageAdapter.save s e)
        /\ forall error,
             IndexedDbStorageAdapter.save_try s e = Rejected error ->
             IndexedDbStorageAdapter.save s e = Resolved tt)
  /\ (forall e,
        IndexedDbStorageAdapter.initialized e <> Pending ->
        IndexedDbStorageAdapter.openIndexedDb e <> Pending ->
        IndexedDbStorageAdapter.get_request e <> Pending ->
        IndexedDbStorageAdapter.tx_done e <> Pending ->
        exists result, IndexedDbStorageAdapter.load e = Resolved result)
  /\ (forall s e,
        IndexedDbStorageAdapter.initialized e <> Pending ->
        IndexedDbStorageAdapter.openIndexedDb e <> Pending ->
        IndexedDbStorageAdapter.put_request e <> Pending ->
        IndexedDbStorageAdapter.tx_done e <> Pending ->
        IndexedDbStorageAdapter.save s e = Resolved tt).
Proof.
  split; [|split; [|split; [|split; [|split; [|split; [|split]]]]]].
  - intros JSON_parse env. split; [apply load_settles|].
    intros error Hthrow. unfold LocalStorageAdapter.load.
    destruct (LocalStorageAdapter.load_window env); simpl; [|reflexivity].
    now rewrite Hthrow.
  - intros JSON_stringify s env a. apply save_settles.
  - intros flag a. unfold MemoryStorageAdapter.load.
    destruct (MemoryStorageAdapter.snapshot a) as [s|]; [|now eexists].
    destruct (truthy s); now eexists.
  - intros flag s a. reflexivity.
  - apply indexedDb_load_never_rejects.
  - apply indexedDb_save_never_rejects.
  - apply indexedDb_load_settles.
  - apply indexedDb_save_settles.
Qed.

(** Reading localStorage throws a SecurityError: load resolves to null. *)
Lemma storage_denied_load_resolves :
  LocalStorageAdapter.load parse_literals storage_denied = Resolved None.
Proof.
  destruct storage_adapters_never_reject as (Hload & _).
  apply (proj2 (Hload parse_literals storage_denied) SecurityError).
  reflexivity.
Defined.

End AdaptersNeverReject.

(** * Part III: further properties of the code *)

(** ** Opening the database and choosing the adapter *)

Section StorageSetupFacts.
Import Storage StorageSetup.

Lemma open_calls_cached (envs : list open_env) (p : open_promise) :
  open_calls envs (Some p) = (replicate (length envs) (promise_of p), Some p, 0%nat).
Proof.
  induction envs as [|env envs IH]; simpl; [reflexivity|].
  rewrite IH. reflexivity.
Qed.

Lemma open_calls_unavailable (envs : list open_env) :
  Forall (fun env => indexedDB_defined env = false) envs ->
  open_calls envs None
  = (replicate (length envs) (Rejected (Error "IndexedDB unavailable")), None, 0%nat).
Proof.
  induction envs as [|env envs IH]; intros Hall; simpl; [reflexivity|].
  inversion Hall as [|env' envs' Hundef Hrest]; subst env' envs'.
  rewrite Hundef. simpl. rewrite (IH Hrest). reflexivity.
Qed.

Lemma open_calls_at_most_once (envs : list open_env) :
  forall cache, (snd (open_calls envs cache) <= 1)%nat.
Proof.
  induction envs as [|env envs IH]; intros cache; simpl; [lia|].
  destruct cache as [p|]; simpl.
  - rewrite open_calls_cached. simpl. lia.
  - destruct (indexedDB_defined env); simpl.
    + rewrite open_calls_cached. simpl. lia.
    + specialize (IH None).
      destruct (open_calls envs None) as [[ps cache2] n2]. simpl in *. lia.
Qed.

(** X1: openIndexedDb opens the database at most once for all the calls
    made before the promise settles. With a cached promise every call
    returns it and opens nothing, whether indexedDB exists or not. With an
    empty cache, the calls made while indexedDB is missing reject with
    IndexedDB unavailable and cache nothing; the first call that finds
    indexedDB opens the database once, and that call and all later ones
    return its promise. When the request fails (request.onerror), the cache
    is emptied as the promise settles, so that the next call opens the
    database again. When indexedDB.open itself throws, the rejected promise
    stays cached: every later call rejects with the same error and the
    database is never opened again. *)
Theorem openIndexedDb_single_flight (envs : list open_env)
  (cache : option open_promise) :
  (snd (open_calls envs cache) <= 1)%nat
  /\ (forall p, cache = Some p ->
        open_calls envs cache
        = (replicate (length envs) (promise_of p), Some p, 0%nat))
  /\ (forall missing env rest,
        cache = None -> envs = missing ++ env :: rest ->
        Forall (fun e => indexedDB_defined e = false) missing ->
        indexedDB_defined env = true ->
        open_calls envs cache
        = (replicate (length missing) (Rejected (Error "IndexedDB unavailable"))
           ++ replicate (S (length rest)) (promise_of (open_request env)),
           Some (open_request env), 1%nat))
  /\ (cache = None ->
      Forall (fun e => indexedDB_defined e = false) envs ->
      open_calls envs cache
      = (replicate (length envs) (Rejected (Error "IndexedDB unavailable")), None, 0%nat))
  /\ (forall env error,
        indexedDB_defined env = true ->
        openIndexedDb env (open_settled (Some (open_error error)))
        = (promise_of (open_request env), Some (open_request env), 1%nat))
  /\ (forall error,
        open_calls envs (open_settled (Some (open_throws error)))
        = (replicate (length envs) (Rejected error), Some (open_throws error), 0%nat)).
Proof.
  split; [apply open_calls_at_most_once|].
  split; [intros p ->; apply open_calls_cached|].
  split.
  { intros missing env rest -> -> Hmissing Hdef.
    induction missing as [|m missing IH]; simpl.
    - rewrite Hdef. simpl. rewrite open_calls_cached. reflexivity.
    - inversion Hmissing as [|m' l' Hm Hrest]; subst m' l'.
      rewrite Hm. simpl. rewrite (IH Hrest). reflexivity. }
  split; [intros ->; apply open_calls_unavailable|].
  split.
  - intros env error Hdef. simpl. rewrite Hdef. reflexivity.
  - intros error. simpl. apply open_calls_cached.
Qed.

(** Three calls in a row on an empty cache, indexedDB missing at the first:
    one open, shared by the second and the third call. *)
Lemma openIndexedDb_single_flight_example :
  open_calls [{| indexedDB_defined := false; open_request := open_blocked |};
              open_ok; open_fails]
    None
  = ([Rejected (Error "IndexedDB unavailable"); Resolved tt; Resolved tt],
     Some opened, 1%nat).
Proof.
  destruct (openIndexedDb_single_flight
              [{| indexedDB_defined := false; open_request := open_blocked |};
               open_ok; open_fails]
              None) as (_ & _ & Hfirst & _).
  apply (Hfirst [{| indexedDB_defined := false; open_request := open_blocked |}]
           open_ok [open_fails]).
  - reflexivity.
  - reflexivity.
  - repeat constructor.
  - reflexivity.
Defined.

(** With window and indexedDB, and the log evaluated: the constructor and
    the await share one promise, the cached one or the one made now. *)
Lemma createStorageAdapter_cases (env : create_env) (cache : option open_promise) :
  window_defined env = true -> diagnostics env = Normal tt ->
  indexedDB_defined (idb env) = true ->
  createStorageAdapter env cache
  = match match cache with Some p => p | None => open_request (idb env) end with
    | opened =>
        (Resolved (IndexedDb (Resolved tt)), Some opened,
         match cache with Some _ => 0%nat | None => 1%nat end)
    | open_error error =>
        (Resolved (Local LocalStorageAdapter.init), None,
         match cache with Some _ => 0%nat | None => 1%nat end)
    | open_throws error =>
        (Resolved (Local LocalStorageAdapter.init), Some (open_throws error),
         match cache with Some _ => 0%nat | None => 1%nat end)
    | open_blocked =>
        (Pending, Some open_blocked,
         match cache with Some _ => 0%nat | None => 1%nat end)
    end.
Proof.
  intros Hwin Hdiag Hdef. unfold createStorageAdapter, new_IndexedDbStorageAdapter.
  rewrite Hwin, Hdiag, Hdef. simpl.
  destruct cache as [q|]; simpl.
  - destruct q; reflexivity.
  - rewrite Hdef. simpl. destruct (open_request (idb env)); reflexivity.
Qed.

(** X2: createStorageAdapter opens the database at most once, and rejects
    only when the evaluation of its first log throws (window existing).
    Without window it resolves to the in-memory adapter. It resolves to the
    IndexedDB adapter exactly when the database has opened: the initialized
    promise of that adapter is resolved and the promise stays cached. It
    resolves to the localStorage adapter exactly when indexedDB is missing
    or the promise of the database is rejected; after a failed request the
    cache is empty again, whereas after a throw of indexedDB.open the
    rejected promise stays cached, so that every later call falls back to
    localStorage without opening the database. It stays pending exactly
    while the open is pending. The storage that the provider ends up with
    is the one createStorageAdapter resolves to, and the localStorage
    adapter when it rejects: the choice of the provider never rejects. *)
Theorem createStorageAdapter_choice (env : create_env)
  (cache : option open_promise) :
  let result := fst (fst (createStorageAdapter env cache)) in
  let cache' := snd (fst (createStorageAdapter env cache)) in
  let opens := snd (createStorageAdapter env cache) in
  let awaited := match cache with Some p => p | None => open_request (idb env) end in
  (forall error,
     result = Rejected error <->
     window_defined env = true /\ diagnostics env = Throw error)
  /\ (opens <= 1)%nat
  /\ (result = Resolved (Memory MemoryStorageAdapter.init) <-> window_defined env = false)
  /\ (forall initialized,
        result = Resolved (IndexedDb initialized) <->
        window_defined env = true /\ diagnostics env = Normal tt /\
        indexedDB_defined (idb env) = true /\
        awaited = opened /\ initialized = Resolved tt)
  /\ (forall initialized,
        result = Resolved (IndexedDb initialized) -> cache' = Some opened)
  /\ (forall a,
        result = Resolved (Local a) <->
        a = LocalStorageAdapter.init /\ window_defined env = true /\
        diagnostics env = Normal tt /\
        (indexedDB_defined (idb env) = false
         \/ exists error, awaited = open_error error \/ awaited = open_throws error))
  /\ (forall error,
        window_defined env = true -> diagnostics env = Normal tt ->
        indexedDB_defined (idb env) = true ->
        (awaited = open_error error -> cache' = None)
        /\ (awaited = open_throws error ->
            cache' = Some (open_throws error)
            /\ createStorageAdapter env cache'
               = (Resolved (Local LocalStorageAdapter.init), cache', 0%nat)))
  /\ (result = Pending <->
      window_defined env = true /\ diagnostics env = Normal tt /\
      indexedDB_defined (idb env) = true /\ awaited = open_blocked)
  /\ never_rejects (provider_storage env cache)
  /\ provider_storage env cache
     = match result with
       | Rejected _ => Resolved (Local LocalStorageAdapter.init)
       | settled => settled
       end.
Proof.
  intros result cache' opens awaited.
  destruct (window_defined env) eqn:Hwin.
  2:{ assert (createStorageAdapter env cache
              = (Resolved (Memory MemoryStorageAdapter.init), cache, 0%nat)) as Hc
        by (unfold createStorageAdapter; rewrite Hwin; reflexivity).
      unfold provider_storage. subst result cache' opens. rewrite Hwin, Hc. simpl.
      split; [intros error; split; [discriminate | intros (H & _); discriminate]|].
      split; [lia|]. split; [tauto|].
      split; [intros x; split; [discriminate | intros (H & _); discriminate]|].
      split; [discriminate|].
      split; [intros a; split; [discriminate | intros (_ & H & _); discriminate]|].
      split; [discriminate|].
      split; [split; [discriminate | intros (H & _); discriminate]|].
      split; [exact I | reflexivity]. }
  destruct (diagnostics env) as [[]|thrown] eqn:Hdiag.
  2:{ assert (createStorageAdapter env cache = (Rejected thrown, cache, 0%nat)) as Hc
        by (unfold createStorageAdapter; rewrite Hwin, Hdiag; reflexivity).
      unfold provider_storage. subst result cache' opens. rewrite Hwin, Hc. simpl.
      split.
      { intros error. split; [intros [= ->]; auto | intros (_ & [= ->]); reflexivity]. }
      split; [lia|]. split; [split; discriminate|].
      split; [intros x; split; [discriminate | intros (_ & H & _); discriminate]|].
      split; [discriminate|].
      split; [intros a; split; [discriminate | intros (_ & _ & H & _); discriminate]|].
      split; [discriminate|].
      split; [split; [discriminate | intros (_ & H & _); discriminate]|].
      split; [exact I | reflexivity]. }
  destruct (indexedDB_defined (idb env)) eqn:Hdef.
  2:{ assert (createStorageAdapter env cache
              = (Resolved (Local LocalStorageAdapter.init), cache, 0%nat)) as Hc
        by (unfold createStorageAdapter; rewrite Hwin, Hdiag, Hdef; reflexivity).
      unfold provider_storage. subst result cache' opens. rewrite Hwin, Hc. simpl.
      split; [intros error; split; [discriminate | intros (_ & H); discriminate]|].
      split; [lia|]. split; [split; discriminate|].
      split; [intros x; split; [discriminate | intros (_ & _ & H & _); discriminate]|].
      split; [discriminate|].
      split.
      { intros a. split; [intros [= <-]; auto | intros (-> & _); reflexivity]. }
      split; [discriminate|].
      split; [split; [discriminate | intros (_ & _ & H & _); discriminate]|].
      split; [exact I | reflexivity]. }
  pose proof (createStorageAdapter_cases env cache Hwin Hdiag Hdef) as Hc.
  fold awaited in Hc.
  assert (forall error, awaited = open_throws error ->
            createStorageAdapter env (Some (open_throws error))
            = (Resolved (Local LocalStorageAdapter.init), Some (open_throws error), 0%nat))
    as Hagain.
  { intros error _.
    apply (createStorageAdapter_cases env (Some (open_throws error)) Hwin Hdiag Hdef). }
  unfold provider_storage. subst result cache' opens. rewrite Hwin, Hc. clear Hc.
  assert ((match cache with Some _ => 0%nat | None => 1%nat end <= 1)%nat) as Hopens
    by (destruct cache; lia).
  destruct awaited as [|failure|failure|] eqn:Haw; simpl.
  - split; [intros error; split; [discriminate | intros (_ & H); discriminate]|].
    split; [exact Hopens|]. split; [split; discriminate|].
    split.
    { intros x. split; [intros [= <-]; auto | intros (_ & _ & _ & _ & ->); reflexivity]. }
    split; [reflexivity|].
    split.
    { intros a. split; [discriminate|].
      intros (_ & _ & _ & [H|(e & [H|H])]); discriminate. }
    split; [intros error _ _ _; split; discriminate|].
    split; [split; [discriminate | intros (_ & _ & _ & H); discriminate]|].
    split; [exact I | reflexivity].
  - split; [intros error; split; [discriminate | intros (_ & H); discriminate]|].
    split; [exact Hopens|]. split; [split; discriminate|].
    split; [intros x; split; [discriminate | intros (_ & _ & _ & H & _); discriminate]|].
    split; [discriminate|].
    split.
    { intros a. split.
      - intros [= <-]. split; [reflexivity|]. split; [reflexivity|].
        split; [reflexivity|]. right. exists failure. now left.
      - intros (-> & _). reflexivity. }
    split; [intros error _ _ _; split; [reflexivity | discriminate]|].
    split; [split; [discriminate | intros (_ & _ & _ & H); discriminate]|].
    split; [exact I | reflexivity].
  - split; [intros error; split; [discriminate | intros (_ & H); discriminate]|].
    split; [exact Hopens|]. split; [split; discriminate|].
    split; [intros x; split; [discriminate | intros (_ & _ & _ & H & _); discriminate]|].
    split; [discriminate|].
    split.
    { intros a. split.
      - intros [= <-]. split; [reflexivity|]. split; [reflexivity|].
        split; [reflexivity|]. right. exists failure. now right.
      - intros (-> & _). reflexivity. }
    split.
    { intros error _ _ _. split; [discriminate|].
      intros [= <-]. split; [reflexivity|]. now apply Hagain. }
    split; [split; [discriminate | intros (_ & _ & _ & H); discriminate]|].
    split; [exact I | reflexivity].
  - split; [intros error; split; [discriminate | intros (_ & H); discriminate]|].
    split; [exact Hopens|]. split; [split; discriminate|].
    split; [intros x; split; [discriminate | intros (_ & _ & _ & H & _); discriminate]|].
    split; [discriminate|].
    split.
    { intros a. split; [discriminate|].
      intros (_ & _ & _ & [H|(e & [H|H])]); discriminate. }
    split; [intros error _ _ _; split; discriminate|].
    split; [split; auto|].
    split; [exact I | reflexivity].
Qed.

(** A browser in which indexedDB.open throws: the localStorage adapter is
    chosen, the rejected promise stays cached, and a second call falls back
    again without opening the database. *)
Lemma createStorageAdapter_choice_denied :
  createStorageAdapter (browser open_denied) None
  = (Resolved (Local LocalStorageAdapter.init), Some (open_throws SecurityError), 1%nat)
  /\ createStorageAdapter (browser open_denied) (Some (open_throws SecurityError))
     = (Resolved (Local LocalStorageAdapter.init), Some (open_throws SecurityError), 0%nat).
Proof.
  split; [reflexivity|].
  destruct (createStorageAdapter_choice (browser open_denied) None)
    as (_ & _ & _ & _ & _ & _ & Hcache & _).
  destruct (Hcache SecurityError eq_refl eq_refl eq_refl) as (_ & Hthrows).
  exact (proj2 (Hthrows eq_refl)).
Defined.

End StorageSetupFacts.

(** ** Saving and loading through the adapters *)

Section AdapterRoundTrips.
Import Storage StorageSetup.

Lemma load_well_formed (JSON_parse : string -> completion json)
  (store : gmap string string) (text : string)
  (sessions : list json) (activeSessionId : option string) :
  store !! STORAGE_KEY = Some text ->
  text <> ""%string ->
  JSON_parse text = Normal (mk_snapshot sessions activeSessionId) ->
  LocalStorageAdapter.load JSON_parse (reading store)
  = Resolved (Some (mk_snapshot sessions activeSessionId)).
Proof.
  intros Hget Htext Hparse.
  unfold LocalStorageAdapter.load, LocalStorageAdapter.load_try, reading. simpl.
  rewrite Hget. simpl.
  apply String.eqb_neq in Htext. rewrite Htext. simpl.
  rewrite Hparse. reflexivity.
Qed.

Lemma save_effects_when_open (JSON_stringify : json -> string) (s : json)
  (env : LocalStorageAdapter.save_env) (a : LocalStorageAdapter.t) :
  LocalStorageAdapter.save_window env = true ->
  LocalStorageAdapter.blocked a = false
  \/ LocalStorageAdapter.RETRY_INTERVAL_MS
     < LocalStorageAdapter.now env - LocalStorageAdapter.lastBlockedTime a ->
  LocalStorageAdapter.setItem_throws env = None ->
  snd (LocalStorageAdapter.save JSON_stringify s env a)
  = [LocalStorageAdapter.setItem STORAGE_KEY (JSON_stringify s)]
  /\ LocalStorageAdapter.blocked (snd (fst (LocalStorageAdapter.save JSON_stringify s env a)))
     = false
  /\ LocalStorageAdapter.lastBlockedTime
       (snd (fst (LocalStorageAdapter.save JSON_stringify s env a))) <= 0.
Proof.
  intros Hwin Hopen Hok. unfold LocalStorageAdapter.save. rewrite Hwin. simpl.
  destruct (LocalStorageAdapter.blocked a) eqn:Hb; simpl.
  - destruct Hopen as [Hopen|Hopen]; [discriminate|].
    replace (LocalStorageAdapter.now env - LocalStorageAdapter.lastBlockedTime a
             >? LocalStorageAdapter.RETRY_INTERVAL_MS) with true
      by (symmetry; rewrite Z.gtb_ltb; now apply Z.ltb_lt).
    simpl. unfold LocalStorageAdapter.save_try. rewrite Hok. simpl.
    destruct (LocalStorageAdapter.lastBlockedTime a >? 0) eqn:Hpos; simpl.
    + repeat split; lia.
    + rewrite Z.gtb_ltb in Hpos. apply Z.ltb_ge in Hpos. repeat split; exact Hpos.
  - rewrite Hb. unfold LocalStorageAdapter.save_try. rewrite Hok. simpl.
    destruct (LocalStorageAdapter.lastBlockedTime a >? 0) eqn:Hpos; simpl.
    + repeat split; [exact Hb | lia].
    + rewrite Z.gtb_ltb in Hpos. apply Z.ltb_ge in Hpos. repeat split; [exact Hb | exact Hpos].
Qed.

Lemma store_after_no_write (throws : option thrown)
  (effects : list LocalStorageAdapter.effect) (store : gmap string string) :
  LocalStorageAdapter.writes effects = [] -> store_after throws effects store = store.
Proof.
  intros Hw. unfold store_after. destruct throws; [reflexivity|].
  revert store. induction effects as [|e effects IH]; intros store; simpl; [reflexivity|].
  destruct e as [key value|message]; simpl in *; [discriminate|].
  apply IH. exact Hw.
Qed.

(** X3: through the localStorage adapter a snapshot survives save and load
    when the write takes place. If window exists, the adapter is not in its
    cooldown, setItem does not throw and JSON.parse reads back what
    JSON.stringify wrote (a text that is not empty), then the adapter is
    not blocked afterwards and load on the storage as save left it resolves
    to the saved snapshot. A save that is skipped in the cooldown, or whose
    setItem throws, leaves the storage untouched: the snapshot is dropped
    and load answers what it answered before. *)
Theorem localStorage_round_trip (JSON_parse : string -> completion json)
  (JSON_stringify : json -> string)
  (sessions : list json) (activeSessionId : option string)
  (env : LocalStorageAdapter.save_env) (a : LocalStorageAdapter.t)
  (store : gmap string string) :
  let s := mk_snapshot sessions activeSessionId in
  let a' := fst (save_to JSON_stringify s env a store) in
  let store' := snd (save_to JSON_stringify s env a store) in
  (LocalStorageAdapter.save_window env = true ->
   LocalStorageAdapter.blocked a = false
   \/ LocalStorageAdapter.RETRY_INTERVAL_MS
      < LocalStorageAdapter.now env - LocalStorageAdapter.lastBlockedTime a ->
   LocalStorageAdapter.setItem_throws env = None ->
   JSON_stringify s <> ""%string ->
   JSON_parse (JSON_stringify s) = Normal s ->
   LocalStorageAdapter.blocked a' = false
   /\ LocalStorageAdapter.load JSON_parse (reading store') = Resolved (Some s))
  /\ (LocalStorageAdapter.blocked a = true ->
      LocalStorageAdapter.now env - LocalStorageAdapter.lastBlockedTime a
      <= LocalStorageAdapter.RETRY_INTERVAL_MS ->
      a' = a /\ store' = store)
  /\ (forall error, LocalStorageAdapter.setItem_throws env = Some error ->
                    store' = store).
Proof.
  intros s a' store'. split; [|split].
  - intros Hwin Hopen Hok Htext Hparse.
    destruct (save_effects_when_open JSON_stringify s env a Hwin Hopen Hok)
      as (Heff & Hb & _).
    split; [exact Hb|].
    apply (load_well_formed JSON_parse store' (JSON_stringify s) sessions activeSessionId).
    + subst store'. unfold save_to. simpl. rewrite Heff, Hok. simpl.
      apply lookup_insert_eq.
    + exact Htext.
    + exact Hparse.
  - intros Hb Hnow. subst a' store'. unfold save_to.
    rewrite (save_blocked_skips JSON_stringify s env a Hb Hnow). simpl.
    split; [reflexivity|]. now apply store_after_no_write.
  - intros error Hthrow. subst store'. unfold save_to. simpl.
    rewrite Hthrow. reflexivity.
Qed.

(** A first save on an empty storage, then load. *)
Lemma localStorage_round_trip_example :
  LocalStorageAdapter.load parse_stub
    (reading (snd (save_to stringify_stub empty_snapshot (save_at 1000000 None)
                     LocalStorageAdapter.init ∅)))
  = Resolved (Some empty_snapshot).
Proof.
  apply (proj1 (localStorage_round_trip parse_stub stringify_stub [] None
                  (save_at 1000000 None) LocalStorageAdapter.init ∅)).
  - reflexivity.
  - left. reflexivity.
  - reflexivity.
  - discriminate.
  - reflexivity.
Defined.

Lemma memory_saves_last (flag : bool) (payloads : list json) (s : json) :
  forall a,
    MemoryStorageAdapter.snapshot (memory_saves flag (payloads ++ [s]) a) = Some s.
Proof.
  induction payloads as [|x payloads IH]; intros a; simpl.
  - now rewrite cloneSnapshot_id.
  - apply IH.
Qed.

(** X4: the in-memory adapter answers null before any save, and after any
    number of saves load answers the payload of the last one, equal by
    value, whichever way cloneSnapshot copies. The one exception is a
    payload that is falsy (null, false, 0 or the empty string): it reads
    back as null. *)
Theorem memory_adapter_last_save_wins (has_structuredClone : bool)
  (payloads : list json) (s : json) (a : MemoryStorageAdapter.t) :
  MemoryStorageAdapter.load has_structuredClone MemoryStorageAdapter.init = Resolved None
  /\ MemoryStorageAdapter.load has_structuredClone
       (memory_saves has_structuredClone (payloads ++ [s]) a)
     = Resolved (if truthy s then Some s else None).
Proof.
  split; [reflexivity|].
  unfold MemoryStorageAdapter.load.
  rewrite memory_saves_last.
  destruct (truthy s); [|reflexivity].
  now rewrite cloneSnapshot_id.
Qed.

(** X5: when the steps of the database succeed, load of the IndexedDB
    adapter resolves to the snapshot of the stored record, equal by value,
    and to null when there is no record under the key. A record that was
    read is thrown away when its transaction then fails or aborts: load
    resolves to null. *)
Theorem indexedDb_load_result (e : IndexedDbStorageAdapter.env)
  (record : option json) :
  IndexedDbStorageAdapter.indexedDB_defined e = true ->
  IndexedDbStorageAdapter.initialized e = Resolved tt ->
  IndexedDbStorageAdapter.openIndexedDb e = Resolved tt ->
  IndexedDbStorageAdapter.transaction e = Normal tt ->
  IndexedDbStorageAdapter.get_request e = Resolved record ->
  (IndexedDbStorageAdapter.tx_done e = Resolved tt ->
   IndexedDbStorageAdapter.load e = Resolved record)
  /\ (forall error, IndexedDbStorageAdapter.tx_done e = Rejected error ->
                    IndexedDbStorageAdapter.load e = Resolved None).
Proof.
  intros Hdef Hinit Hopen Htx Hget.
  unfold IndexedDbStorageAdapter.load, IndexedDbStorageAdapter.load_try,
    mbind, outcome_bind, await, call.
  rewrite Hdef, Hinit, Hopen, Htx, Hget. simpl. split.
  - intros ->. simpl. destruct record as [s|]; [|reflexivity].
    now rewrite cloneSnapshot_id.
  - intros error ->. reflexivity.
Qed.

Lemma indexedDb_load_result_example :
  IndexedDbStorageAdapter.load (idb_reads (Some empty_snapshot) (Resolved tt))
  = Resolved (Some empty_snapshot)
  /\ IndexedDbStorageAdapter.load
       (idb_reads (Some empty_snapshot) (Rejected (Error "IndexedDB transaction aborted")))
     = Resolved None.
Proof.
  split.
  - apply (indexedDb_load_result (idb_reads (Some empty_snapshot) (Resolved tt))
             (Some empty_snapshot) eq_refl eq_refl eq_refl eq_refl eq_refl).
    reflexivity.
  - apply (indexedDb_load_result
             (idb_reads (Some empty_snapshot)
                (Rejected (Error "IndexedDB transaction aborted")))
             (Some empty_snapshot) eq_refl eq_refl eq_refl eq_refl eq_refl
           ) with (error := Error "IndexedDB transaction aborted").
    reflexivity.
Defined.

End AdapterRoundTrips.

(** ** The provider: loading, hydration and fetching *)

Section ProviderFacts.
Import Nip46 Provider.

Lemma module_loads_cached (imports : list (outcome unit)) (p : outcome unit) :
  module_loads imports (Some p) = (replicate (length imports) p, Some p, 0%nat).
Proof.
  induction imports as [|i imports IH]; simpl; [reflexivity|].
  rewrite IH. reflexivity.
Qed.

(** X6: loadNip46Module imports the module at most once: the first call
    starts the import and caches its promise, and every later call returns
    that same promise without importing. This holds as well when the import
    fails: the rejected promise stays cached, so that every later call
    rejects with the same error and the import is never tried again. *)
Theorem loadNip46Module_memoized (imports : list (outcome unit))
  (loader : option (outcome unit)) :
  (forall p, loader = Some p ->
     module_loads imports loader = (replicate (length imports) p, Some p, 0%nat))
  /\ (forall first rest, loader = None -> imports = first :: rest ->
        module_loads imports loader
        = (replicate (length imports) first, Some first, 1%nat))
  /\ (forall error rest later,
        fst (fst (loadNip46Module later
                    (snd (fst (module_loads (Rejected error :: rest) None)))))
        = Rejected error).
Proof.
  split; [intros p ->; apply module_loads_cached|].
  split.
  - intros first rest -> ->. simpl. rewrite module_loads_cached. reflexivity.
  - intros error rest later. simpl. rewrite module_loads_cached. reflexivity.
Qed.

Lemma hydration_frozen (events : list HydrationEvent) :
  forall h,
    disposed h = true -> subscribed h = false ->
    snapshot (hydration_run h events) = snapshot h
    /\ ready (hydration_run h events) = ready h
    /\ disposed (hydration_run h events) = true
    /\ subscribed (hydration_run h events) = false.
Proof.
  induction events as [|e events IH]; intros h Hd Hs; simpl; [auto|].
  destruct e as [s| |s|]; simpl.
  - rewrite Hd. apply IH; assumption.
  - rewrite Hd. apply IH; assumption.
  - rewrite Hs. apply IH; assumption.
  - destruct (IH {| snapshot := snapshot h; ready := ready h;
                    disposed := true; subscribed := false |} eq_refl eq_refl)
      as (H1 & H2 & H3 & H4).
    auto.
Qed.

Lemma hydration_ready_stays (events : list HydrationEvent) :
  forall h, ready h = true -> ready (hydration_run h events) = true.
Proof.
  induction events as [|e events IH]; intros h Hr; simpl; [exact Hr|].
  apply IH. destruct e as [s| |s|]; simpl.
  - destruct (disposed h); [exact Hr | reflexivity].
  - destruct (disposed h); [exact Hr | reflexivity].
  - destruct (subscribed h); exact Hr.
  - exact Hr.
Qed.

Lemma hydration_subscribed_live (events : list HydrationEvent) :
  forall h,
    (subscribed h = true -> disposed h = false) ->
    subscribed (hydration_run h events) = true ->
    disposed (hydration_run h events) = false.
Proof.
  induction events as [|e events IH]; intros h Hinv; simpl; [exact Hinv|].
  apply IH. destruct e as [s| |s|]; simpl.
  - destruct (disposed h) eqn:Hd; [intros Hs; now specialize (Hinv Hs) | auto].
  - destruct (disposed h) eqn:Hd; [intros Hs; now specialize (Hinv Hs) | auto].
  - destruct (subscribed h) eqn:Hs; simpl; [intros _; now apply Hinv|].
    rewrite Hs. discriminate.
  - discriminate.
Qed.

(** The hydration has not settled and the effect has not been cleaned up. *)
Lemma hydration_waiting (events : list HydrationEvent) :
  forall h,
    ready h = false -> disposed h = false -> subscribed h = false ->
    (ready (hydration_run h events) = true <->
     exists before e after,
       events = before ++ e :: after /\ settles e = true
       /\ Forall (fun x => is_cleanup x = false) before)
    /\ (Forall (fun x => settles x = false) events ->
        snapshot (hydration_run h events) = snapshot h).
Proof.
  induction events as [|e events IH]; intros h Hr Hd Hs; simpl.
  - split; [|reflexivity]. split; [congruence|].
    intros (before & e & after & Heq & _). destruct before; discriminate.
  - destruct e as [s| |s|]; simpl.
    + rewrite Hd. split.
      * split.
        -- intros _. exists [], (HydrateResolved s), events. repeat split. constructor.
        -- intros _. now apply hydration_ready_stays.
      * intros Hall. inversion Hall as [|x l Hx Hrest]. discriminate.
    + rewrite Hd. split.
      * split.
        -- intros _. exists [], HydrateRejected, events. repeat split. constructor.
        -- intros _. now apply hydration_ready_stays.
      * intros Hall. inversion Hall as [|x l Hx Hrest]. discriminate.
    + rewrite Hs. destruct (IH h Hr Hd Hs) as (IHready & IHsnap). split.
      * rewrite IHready. split.
        -- intros (before & e & after & -> & Hset & Hb).
           exists (SnapshotChanged s :: before), e, after.
           repeat split; [exact Hset | now constructor].
        -- intros (before & e & after & Heq & Hset & Hb).
           destruct before as [|b before]; simpl in Heq.
           ++ injection Heq as <- _. discriminate.
           ++ injection Heq as <- ->. inversion Hb as [|x l Hx Hrest]; subst x l.
              now exists before, e, after.
      * intros Hall. inversion Hall as [|x l Hx Hrest]; subst x l. now apply IHsnap.
    + destruct (hydration_frozen events
                  {| snapshot := snapshot h; ready := ready h;
                     disposed := true; subscribed := false |} eq_refl eq_refl)
        as (Hsnap & Hready & _ & _).
      simpl in *. split.
      * rewrite Hready, Hr. split; [discriminate|].
        intros (before & e & after & Heq & Hset & Hb).
        destruct before as [|b before]; simpl in Heq.
        -- injection Heq as <- _. discriminate.
        -- injection Heq as <- ->. inversion Hb as [|x l Hx Hrest]. discriminate.
      * intros _. exact Hsnap.
Qed.

(** X7: the hydration effect makes the provider ready exactly when the
    promise of hydrate settles, resolved or rejected, before the effect is
    cleaned up; while it has not settled the snapshot stays the default one
    and changes of the session manager are not heard. Once the effect has
    been cleaned up, nothing that arrives later (a late result of hydrate,
    a change of the sessions) alters the snapshot or the ready flag, and a
    listener is subscribed only while the effect has not been cleaned up. *)
Theorem hydration_ready_unless_disposed (events later : list HydrationEvent) :
  let h := hydration_run hydration_start events in
  (ready h = true <->
   exists before e after,
     events = before ++ e :: after /\ settles e = true
     /\ Forall (fun x => is_cleanup x = false) before)
  /\ (Forall (fun x => settles x = false) events -> snapshot h = defaultSnapshot)
  /\ (subscribed h = true -> disposed h = false)
  /\ (let h' := hydration_run h (Cleanup :: later) in
      snapshot h' = snapshot h /\ ready h' = ready h /\ subscribed h' = false).
Proof.
  intros h.
  destruct (hydration_waiting events hydration_start eq_refl eq_refl eq_refl)
    as (Hready & Hsnap).
  split; [exact Hready|]. split; [exact Hsnap|]. split.
  - apply hydration_subscribed_live. discriminate.
  - simpl.
    destruct (hydration_frozen later
                {| snapshot := snapshot h; ready := ready h;
                   disposed := true; subscribed := false |} eq_refl eq_refl)
      as (H1 & H2 & _ & H4).
    auto.
Qed.

Lemma processed_spec (lastProcessed : option Z) (s : Session) :
  processed lastProcessed s = true <->
  exists t, lastProcessed = Some t /\ t <> 0 /\ updatedAt s <= t.
Proof.
  unfold processed. destruct lastProcessed as [t|]; simpl.
  - rewrite andb_true_iff, negb_true_iff, Z.eqb_neq, Z.leb_le. split.
    + intros (Hne & Hle). now exists t.
    + intros (t' & [= <-] & Hne & Hle). now split.
  - split; [discriminate|]. intros (t & [=] & _).
Qed.

Lemma fetch_session_cases (tracker : gmap string Z) (s : Session) :
  (fetch_session tracker s = [id s]
   /\ fetch_conditions s /\ processed (tracker !! id s) s = false)
  \/ (fetch_session tracker s = []
      /\ ~ (fetch_conditions s /\ processed (tracker !! id s) s = false)).
Proof.
  unfold fetch_session, fetch_conditions.
  destruct (is_active (status s)) eqn:Hact; simpl.
  2:{ right. split; [reflexivity|]. intros ((H & _) & _).
      apply is_active_true in H. congruence. }
  destruct (truthy_string (remoteSignerPubkey s)) eqn:Hrem; simpl.
  2:{ right. split; [reflexivity|]. intros ((_ & H & _) & _).
      apply truthy_string_true in H. congruence. }
  destruct (truthy_string (userPubkey s)) eqn:Huser; simpl.
  1:{ right. split; [reflexivity|]. intros ((_ & _ & H & _) & _).
      apply truthy_string_false in H. congruence. }
  destruct (truthy_string (lastError s)) eqn:Herr; simpl.
  1:{ right. split; [reflexivity|]. intros ((_ & _ & _ & H) & _).
      apply truthy_string_false in H. congruence. }
  destruct (processed (tracker !! id s) s) eqn:Hp.
  - right. split; [reflexivity|]. intros (_ & H). discriminate.
  - left. split; [reflexivity|]. split; [|reflexivity].
    repeat split.
    + now apply is_active_true.
    + now apply truthy_string_true.
    + now apply truthy_string_false.
    + now apply truthy_string_false.
Qed.

(** X8: the fetch effect calls fetchUserPublicKey for a session id exactly
    when the provider is ready with a transport and a service, and a
    session of the snapshot with that id is active, has a remote signer key,
    has no user public key and no error yet, and has not been processed at
    its current updatedAt. A session that qualifies for adoption is never
    fetched, so the adoption candidate is never asked for its key again. *)
Theorem fetch_only_keyless_sessions (d : Deps) (snapshot : SessionSnapshot)
  (tracker : gmap string Z) :
  (forall sessionId,
     In sessionId (fetch_effect d snapshot tracker) <->
     fetch_deps_ready d = true /\
     exists s, In s (sessions snapshot) /\ id s = sessionId /\
               fetch_conditions s /\ processed (tracker !! id s) s = false)
  /\ (forall s, adoptable s = true -> fetch_session tracker s = [])
  /\ (forall c, candidate snapshot = Some c -> fetch_session tracker c = []).
Proof.
  split; [|split].
  - intros sessionId. unfold fetch_effect.
    destruct (fetch_deps_ready d); simpl.
    + rewrite in_flat_map. split.
      * intros (s & Hin & Hcall).
        split; [reflexivity|]. exists s.
        destruct (fetch_session_cases tracker s) as [(Heq & Hc & Hp)|(Heq & _)];
          rewrite Heq in Hcall; [|destruct Hcall].
        destruct Hcall as [<-|[]]. auto.
      * intros (_ & s & Hin & <- & Hc & Hp). exists s. split; [exact Hin|].
        destruct (fetch_session_cases tracker s) as [(Heq & _)|(_ & Hn)].
        -- rewrite Heq. now left.
        -- exfalso. apply Hn. now split.
    + split; [intros [] | intros (H & _); discriminate].
  - intros s Hs. apply adoptable_spec in Hs. destruct Hs as (_ & (k & Hk & Hne) & _).
    destruct (fetch_session_cases tracker s) as [(_ & (_ & _ & Hblank & _) & _)|(Heq & _)];
      [|exact Heq].
    exfalso. destruct Hblank as [H|H]; congruence.
  - intros c Hc.
    assert (adoptable c = true) as Hs.
    { unfold candidate in Hc. now apply find_some in Hc. }
    apply adoptable_spec in Hs. destruct Hs as (_ & (k & Hk & Hne) & _).
    destruct (fetch_session_cases tracker c) as [(_ & (_ & _ & Hblank & _) & _)|(Heq & _)];
      [|exact Heq].
    exfalso. destruct Hblank as [H|H]; congruence.
Qed.

End ProviderFacts.

(** ** The tracker of the fetch effect *)

Section FetchTracker.
Import Nip46 Provider.

Lemma fetch_session_lookup (tracker tracker' : gmap string Z) (s : Session) :
  tracker' !! id s = tracker !! id s ->
  fetch_session tracker' s = fetch_session tracker s.
Proof. unfold fetch_session. now intros ->. Qed.

Lemma fetch_session_issued (tracker : gmap string Z) (s : Session) :
  fetch_conditions s -> processed (tracker !! id s) s = false ->
  fetch_session tracker s = [id s].
Proof.
  intros Hc Hp. destruct (fetch_session_cases tracker s) as [(H & _)|(_ & Hn)].
  - exact H.
  - exfalso. apply Hn. now split.
Qed.

Lemma fetch_session_processed (tracker : gmap string Z) (s : Session) :
  processed (tracker !! id s) s = true -> fetch_session tracker s = [].
Proof.
  intros Hp. destruct (fetch_session_cases tracker s) as [(_ & _ & H)|(H & _)].
  - congruence.
  - exact H.
Qed.

(** X9: the fetch tracker makes the fetch effect repeat a fetch until it has
    succeeded. For a session [s'] that the effect goes on with (active,
    remote signer key, no user key, no error) and a fetch that was issued
    for the same id when the session was [s]: after a failed fetch, with no
    earlier success recorded, the next run fetches again; after a successful
    fetch the next runs do not fetch while the session's updatedAt is at
    most the recorded stamp (a stamp that is not 0), and fetch again once
    updatedAt is larger, or when the recorded stamp is 0. Sessions with
    another id are not affected by the settling. *)
Theorem fetch_repeats_until_success (tracker : gmap string Z) (s s' : Session) :
  fetch_conditions s' ->
  id s' = id s ->
  (tracker !! id s = None ->
   fetch_session (fetch_settled s false tracker) s' = [id s'])
  /\ (updatedAt s <> 0 -> updatedAt s' <= updatedAt s ->
      fetch_session (fetch_settled s true tracker) s' = [])
  /\ (updatedAt s < updatedAt s' \/ updatedAt s = 0 ->
      fetch_session (fetch_settled s true tracker) s' = [id s'])
  /\ (forall other ok, id other <> id s ->
        fetch_session (fetch_settled s ok tracker) other = fetch_session tracker other).
Proof.
  intros Hc Hid. split; [|split; [|split]].
  - intros Hnone. simpl. apply fetch_session_issued; [exact Hc|].
    rewrite Hid, Hnone. reflexivity.
  - intros Hne Hle. apply fetch_session_processed. simpl.
    rewrite Hid, lookup_insert_eq. apply processed_spec.
    exists (updatedAt s). auto.
  - intros Hlt. apply fetch_session_issued; [exact Hc|]. simpl.
    rewrite Hid, lookup_insert_eq.
    destruct (processed (Some (updatedAt s)) s') eqn:Hp; [|reflexivity].
    apply processed_spec in Hp. destruct Hp as (t & [= <-] & Hne & Hle). lia.
  - intros other ok Hne. apply fetch_session_lookup.
    destruct ok; simpl; [|reflexivity].
    apply lookup_insert_ne. congruence.
Qed.

Lemma fetch_repeats_until_success_S4 :
  fetch_conditions (S4 200) /\ id (S4 200) = id (S4 100)
  /\ fetch_session (fetch_settled (S4 100) false ∅) (S4 100) = ["S4"%string]
  /\ fetch_session (fetch_settled (S4 100) true ∅) (S4 100) = []
  /\ fetch_session (fetch_settled (S4 100) true ∅) (S4 200) = ["S4"%string].
Proof.
  assert (forall stamp, fetch_conditions (S4 stamp)) as Hc.
  { intros stamp. unfold fetch_conditions, is_set, is_blank. simpl.
    split; [reflexivity|]. split; [|split; now left].
    exists "R4"%string. split; [reflexivity | discriminate]. }
  split; [apply Hc|]. split; [reflexivity|].
  split; [|split].
  - apply (fetch_repeats_until_success ∅ (S4 100) (S4 100) (Hc 100) eq_refl).
    reflexivity.
  - apply (fetch_repeats_until_success ∅ (S4 100) (S4 100) (Hc 100) eq_refl);
      simpl; lia.
  - apply (fetch_repeats_until_success ∅ (S4 100) (S4 200) (Hc 200) eq_refl).
    left. simpl. lia.
Defined.

End FetchTracker.

(** ** The reconnection loop: attempts in flight *)

Section ReconnectInFlight.
Import Nip46.

Lemma reconnect_sessions_once adopted now (l : list Session) :
  forall r,
    List.NoDup (snd (reconnect_sessions adopted now l r))
    /\ (forall c, In c (snd (reconnect_sessions adopted now l r)) ->
          exists sid, c = connectSession sid
                      /\ (sid ∉ reconnectTrackerRef r)
                      /\ sid ∈ reconnectTrackerRef (fst (reconnect_sessions adopted now l r))
                      /\ reconnectCooldownRef (fst (reconnect_sessions adopted now l r)) !! sid
                         = Some now)
    /\ (forall sid, ~ In (connectSession sid) (snd (reconnect_sessions adopted now l r)) ->
          (sid ∈ reconnectTrackerRef (fst (reconnect_sessions adopted now l r))
           <-> sid ∈ reconnectTrackerRef r)
          /\ reconnectCooldownRef (fst (reconnect_sessions adopted now l r)) !! sid
             = reconnectCooldownRef r !! sid).
Proof.
  induction l as [|s l IH]; intros r; simpl.
  - split; [constructor|]. split; [intros c []|]. intros sid _. split; reflexivity.
  - destruct (reconnect_session adopted now r s) as [r1 calls1] eqn:H1.
    destruct (IH r1) as (IHnodup & IHcalled & IHother).
    destruct (reconnect_sessions adopted now l r1) as [r2 calls2].
    simpl in *.
    destruct (reconnect_session_cases adopted now r s) as [H|(_ & Hfree & _ & H)];
      rewrite H in H1; injection H1 as <- <-; simpl.
    + split; [exact IHnodup|]. split; [exact IHcalled | exact IHother].
    + assert (~ In (connectSession (id s)) calls2) as Hfresh.
      { intros Hin. destruct (IHcalled _ Hin) as (sid & [= <-] & Hnot & _).
        apply Hnot. simpl. apply elem_of_union. left. now apply elem_of_singleton. }
      split; [constructor; assumption|]. split.
      * intros c [<-|Hin].
        -- exists (id s). split; [reflexivity|]. split; [exact Hfree|].
           destruct (IHother (id s) Hfresh) as (Htr & Hcd). split.
           ++ apply Htr. simpl. apply elem_of_union. left. now apply elem_of_singleton.
           ++ rewrite Hcd. simpl. apply lookup_insert_eq.
        -- destruct (IHcalled c Hin) as (sid & -> & Hnot & Htr & Hcd).
           exists sid. split; [reflexivity|]. split; [|split; assumption].
           intros Hold. apply Hnot. simpl. apply elem_of_union. now right.
      * intros sid Hnot.
        assert (sid <> id s) as Hne by (intros ->; apply Hnot; now left).
        assert (~ In (connectSession sid) calls2) as Hnot2
          by (intros Hin; apply Hnot; now right).
        destruct (IHother sid Hnot2) as (Htr & Hcd). split.
        -- rewrite Htr. simpl. rewrite elem_of_union, elem_of_singleton. tauto.
        -- rewrite Hcd. simpl. apply lookup_insert_ne. congruence.
Qed.

Lemma reconnect_effect_once (d : Deps) (now : Z) (snapshot : SessionSnapshot) (r : Refs) :
  List.NoDup (snd (reconnect_effect d now snapshot r))
  /\ (forall c, In c (snd (reconnect_effect d now snapshot r)) ->
        exists sid, c = connectSession sid
                    /\ (sid ∉ reconnectTrackerRef r)
                    /\ sid ∈ reconnectTrackerRef (fst (reconnect_effect d now snapshot r))
                    /\ reconnectCooldownRef (fst (reconnect_effect d now snapshot r)) !! sid
                       = Some now)
  /\ (forall sid, ~ In (connectSession sid) (snd (reconnect_effect d now snapshot r)) ->
        (sid ∈ reconnectTrackerRef (fst (reconnect_effect d now snapshot r))
         <-> sid ∈ reconnectTrackerRef r)
        /\ reconnectCooldownRef (fst (reconnect_effect d now snapshot r)) !! sid
           = reconnectCooldownRef r !! sid).
Proof.
  unfold reconnect_effect. destruct (reconnect_deps_ready d); simpl.
  - apply reconnect_sessions_once.
  - split; [constructor|]. split; [intros c []|]. intros sid _. split; reflexivity.
Qed.

(** X10: one run of the reconnection loop attempts a session id at most
    once, even when the snapshot lists several sessions with that id: the
    calls it makes are calls of connectSession without repetition; an id
    that is attempted was not in flight before the run, and after the run it
    is in flight with the time of the run as its last attempt; for every
    other id the run leaves the in-flight set and the last attempt time as
    they were. *)
Theorem reconnect_run_attempts_once (d : Deps) (now : Z)
  (snapshot : SessionSnapshot) (r : Refs) :
  let r' := fst (reconnect_effect d now snapshot r) in
  let calls := snd (reconnect_effect d now snapshot r) in
  List.NoDup calls
  /\ (forall c, In c calls ->
        exists sid, c = connectSession sid
                    /\ (sid ∉ reconnectTrackerRef r)
                    /\ sid ∈ reconnectTrackerRef r'
                    /\ reconnectCooldownRef r' !! sid = Some now)
  /\ (forall sid, ~ In (connectSession sid) calls ->
        (sid ∈ reconnectTrackerRef r' <-> sid ∈ reconnectTrackerRef r)
        /\ reconnectCooldownRef r' !! sid = reconnectCooldownRef r !! sid).
Proof.
  unfold reconnect_effect. destruct (reconnect_deps_ready d); simpl.
  - apply reconnect_sessions_once.
  - split; [constructor|]. split; [intros c []|].
    intros sid _. split; reflexivity.
Qed.

Lemma adoption_effect_refs (d : Deps) (snapshot : SessionSnapshot) (r : Refs) :
  reconnectTrackerRef (fst (adoption_effect d snapshot r)) = reconnectTrackerRef r
  /\ reconnectCooldownRef (fst (adoption_effect d snapshot r)) = reconnectCooldownRef r
  /\ forall sid, ~ In (connectSession sid) (snd (adoption_effect d snapshot r)).
Proof.
  unfold adoption_effect.
  destruct (adoption_deps_ready d); simpl; [|tauto].
  destruct (candidate snapshot) as [c|].
  - case_bool_decide; simpl; [tauto|].
    split; [reflexivity|]. split; [reflexivity|]. intros sid [[=]|[]].
  - destruct (truthy_string (activeSessionRef r)); simpl; [|tauto].
    split; [reflexivity|]. split; [reflexivity|]. intros sid [[=]|[]].
Qed.

Lemma step_in_flight (r : Refs) (e : Event) (sid : string) :
  sid ∈ reconnectTrackerRef r ->
  (forall ok, e <> ConnectSettled sid ok) ->
  ~ In (connectSession sid) (snd (step r e))
  /\ sid ∈ reconnectTrackerRef (fst (step r e)).
Proof.
  intros Hin Hne. destruct e as [d now snapshot|sessionId ok|d snapshot|]; simpl.
  - destruct (reconnect_effect_once d now snapshot r) as (_ & Hcalled & Hother).
    assert (~ In (connectSession sid) (snd (reconnect_effect d now snapshot r))) as Hnot.
    { intros Hc. destruct (Hcalled _ Hc) as (sid' & [= <-] & Hfree & _). contradiction. }
    split; [exact Hnot|]. now apply (Hother sid Hnot).
  - split; [tauto|].
    assert (sessionId <> sid) as Hdiff by (intros ->; now apply (Hne ok)).
    unfold connect_settled, tracker_delete. destruct ok; simpl; set_solver.
  - destruct (adoption_effect_refs d snapshot r) as (Htr & _ & Hcalls).
    split; [apply Hcalls|]. rewrite Htr. exact Hin.
  - split; [tauto | exact Hin].
Qed.

(** X11: at most one connectSession attempt per session id is in flight.
    From the moment an id is in the in-flight set, no run of the
    reconnection loop attempts it again, at whatever time the runs happen
    and whatever the adoption effect does in between, as long as the
    attempt has not settled; the id stays in flight all that time. The
    settling of the attempt, whether it succeeded or failed, takes the id
    out of the in-flight set. *)
Theorem reconnect_single_flight (events : list Event) (sid : string) (r : Refs) :
  sid ∈ reconnectTrackerRef r ->
  (forall ok, ~ In (ConnectSettled sid ok) events) ->
  ~ In (connectSession sid) (snd (run r events))
  /\ sid ∈ reconnectTrackerRef (fst (run r events))
  /\ (forall ok, sid ∉ reconnectTrackerRef (connect_settled sid ok (fst (run r events)))).
Proof.
  revert r. induction events as [|e events IH]; intros r Hin Hne; simpl.
  - split; [tauto|]. split; [exact Hin|].
    intros ok. unfold connect_settled, tracker_delete.
    intros [_ H]%elem_of_difference. apply H. now apply elem_of_singleton.
  - destruct (step_in_flight r e sid Hin) as (Hcalls1 & Hin1).
    { intros ok ->. apply (Hne ok). now left. }
    destruct (step r e) as [r1 calls1]. simpl in *.
    destruct (IH r1 Hin1) as (Hcalls2 & Hin2 & Hout).
    { intros ok Hs. apply (Hne ok). now right. }
    destruct (run r1 events) as [r2 calls2]. simpl in *.
    split; [|split; assumption].
    rewrite in_app_iff. tauto.
Qed.

Lemma reconnect_single_flight_S1 :
  let r := start_attempt "S1" 1000000 (set_activeSessionRef (Some "S1"%string) initial_refs) in
  let later := [ReconnectEffect all_ready 1000001 only_S1;
                AdoptionEffect all_ready only_S1;
                ReconnectEffect all_ready 2000000 only_S1] in
  snd (reconnect_effect all_ready 2000000 only_S1 (connect_settled "S1" false r))
  = [connectSession "S1"]
  /\ ~ In (connectSession "S1") (snd (run r later)).
Proof.
  split; [vm_compute; reflexivity|].
  apply (reconnect_single_flight
           [ReconnectEffect all_ready 1000001 only_S1;
            AdoptionEffect all_ready only_S1;
            ReconnectEffect all_ready 2000000 only_S1]
           "S1"
           (start_attempt "S1" 1000000
              (set_activeSessionRef (Some "S1"%string) initial_refs))).
  - simpl. set_solver.
  - intros ok [H|[H|[H|[]]]]; discriminate H.
Defined.

Lemma step_attempt_times (r : Refs) (e : Event) :
  (reconnectTrackerRef r ⊆ dom (reconnectCooldownRef r) ->
   reconnectTrackerRef (fst (step r e)) ⊆ dom (reconnectCooldownRef (fst (step r e))))
  /\ dom (reconnectCooldownRef r) ⊆ dom (reconnectCooldownRef (fst (step r e))).
Proof.
  destruct e as [d now snapshot|sessionId ok|d snapshot|]; simpl.
  - destruct (reconnect_effect_once d now snapshot r) as (_ & Hcalled & Hother).
    assert (forall sid, In (connectSession sid) (snd (reconnect_effect d now snapshot r))
                        \/ ~ In (connectSession sid) (snd (reconnect_effect d now snapshot r)))
      as Hdec.
    { intros sid.
      assert (forall a b : Call, {a = b} + {a <> b}) as Heq
        by (intros a b; repeat decide equality).
      destruct (in_dec Heq (connectSession sid)
                  (snd (reconnect_effect d now snapshot r))); tauto. }
    split.
    + intros Hinv sid Hin. apply elem_of_dom.
      destruct (Hdec sid) as [Hc|Hc].
      * destruct (Hcalled _ Hc) as (sid' & [= <-] & _ & _ & Hcd). rewrite Hcd. eauto.
      * destruct (Hother sid Hc) as (Htr & Hcd). rewrite Hcd.
        apply elem_of_dom, Hinv, Htr, Hin.
    + intros sid Hin. apply elem_of_dom.
      destruct (Hdec sid) as [Hc|Hc].
      * destruct (Hcalled _ Hc) as (sid' & [= <-] & _ & _ & Hcd). rewrite Hcd. eauto.
      * destruct (Hother sid Hc) as (_ & Hcd). rewrite Hcd. now apply elem_of_dom.
  - unfold connect_settled, tracker_delete.
    destruct ok; simpl; (split; [|reflexivity]); intros Hinv sid Hin;
      apply Hinv; repeat apply elem_of_difference in Hin as [Hin _]; exact Hin.
  - destruct (adoption_effect_refs d snapshot r) as (Htr & Hcd & _).
    rewrite Htr, Hcd. split; [tauto | reflexivity].
  - split; [tauto | reflexivity].
Qed.

(** X12: the provider keeps a last attempt time for every attempt in
    flight, and never forgets one: after any history of effects and
    settled attempts that starts with empty refs, every id in the in-flight
    set has an entry in the cooldown map; and from any refs, whatever
    happens, an id that has an entry in the cooldown map still has one
    afterwards (no code path deletes from the map). *)
Theorem attempt_times_kept (events : list Event) (r : Refs) :
  reconnectTrackerRef (fst (run initial_refs events))
    ⊆ dom (reconnectCooldownRef (fst (run initial_refs events)))
  /\ dom (reconnectCooldownRef r) ⊆ dom (reconnectCooldownRef (fst (run r events))).
Proof.
  assert (forall r0,
            (reconnectTrackerRef r0 ⊆ dom (reconnectCooldownRef r0) ->
             reconnectTrackerRef (fst (run r0 events))
               ⊆ dom (reconnectCooldownRef (fst (run r0 events))))
            /\ dom (reconnectCooldownRef r0)
                 ⊆ dom (reconnectCooldownRef (fst (run r0 events)))) as Hrun.
  { induction events as [|e events IH]; intros r0; simpl; [split; [tauto | reflexivity]|].
    destruct (step_attempt_times r0 e) as (Hinv1 & Hdom1).
    destruct (step r0 e) as [r1 calls1]. simpl in *.
    destruct (IH r1) as (Hinv2 & Hdom2).
    destruct (run r1 events) as [r2 calls2]. simpl in *.
    split; [tauto|]. etransitivity; eassumption. }
  split.
  - apply Hrun. simpl. set_solver.
  - apply Hrun.
Qed.

End ReconnectInFlight.

(** ** Adoption after a rejected call *)

Section AdoptionRetry.
Import Nip46.

(** X13: a rejected call of adoptSigner is retried. The rejection handler
    resets the ref, so that the next run of the adoption effect (with its
    dependencies ready) calls adoptSigner again with a signer for the
    candidate whenever there is a candidate, also when the candidate is the
    session the ref named before the rejection; with no candidate it makes
    no call. *)
Theorem adoption_retried_after_rejection (d : Deps) (snapshot : SessionSnapshot)
  (r : Refs) :
  adoption_deps_ready d = true ->
  activeSessionRef (adoption_rejected r) = None
  /\ match candidate snapshot with
     | Some c =>
         adoption_effect d snapshot (adoption_rejected r)
         = (set_activeSessionRef (Some (id c)) (adoption_rejected r),
            [adoptSigner (Some (Nip46DelegatedSigner (id c)))])
     | None => adoption_effect d snapshot (adoption_rejected r) = (adoption_rejected r, [])
     end.
Proof.
  intros Hd. split; [reflexivity|].
  pose proof (adoption_effect_cases d snapshot (adoption_rejected r) Hd) as H.
  destruct (candidate snapshot) as [c|].
  - destruct H as [(Href & _)|(_ & H)]; [discriminate Href | exact H].
  - destruct H as [(_ & H)|(Ht & _)]; [exact H | discriminate Ht].
Qed.

Lemma adoption_retried_after_rejection_S1 :
  adoption_deps_ready all_ready = true
  /\ activeSessionRef
       (adoption_rejected (set_activeSessionRef (Some "S1"%string) initial_refs)) = None
  /\ adoption_effect all_ready only_S1
       (adoption_rejected (set_activeSessionRef (Some "S1"%string) initial_refs))
     = (set_activeSessionRef (Some "S1"%string)
          (adoption_rejected (set_activeSessionRef (Some "S1"%string) initial_refs)),
        [adoptSigner (Some (Nip46DelegatedSigner "S1"))]).
Proof.
  split; [reflexivity|].
  exact (adoption_retried_after_rejection all_ready only_S1
           (set_activeSessionRef (Some "S1"%string) initial_refs) eq_refl).
Defined.

End AdoptionRetry.

(** ** The manual connect of the application *)

Section ManualConnect.
Import Nip46 App.

Lemma sort_insert_head (compare : Session -> Session -> Z) (x : Session)
  (sorted : list Session) :
  head (sort_insert compare x sorted)
  = match head sorted with
    | None => Some x
    | Some y => if compare x y <=? 0 then Some x else Some y
    end.
Proof.
  destruct sorted as [|y rest]; simpl; [reflexivity|].
  destruct (compare x y <=? 0); reflexivity.
Qed.

Lemma latest_cons (x : Session) (l : list Session) (act act' : option string) :
  latestRemoteSignerSession {| sessions := x :: l; activeSessionId := act |}
  = if connectable x then
      match latestRemoteSignerSession {| sessions := l; activeSessionId := act' |} with
      | None => Some x
      | Some y => if updatedAt y <=? updatedAt x then Some x else Some y
      end
    else latestRemoteSignerSession {| sessions := l; activeSessionId := act' |}.
Proof.
  unfold latestRemoteSignerSession. simpl.
  destruct (connectable x); [|reflexivity].
  simpl. rewrite sort_insert_head.
  destruct (head (sort by_updatedAt_desc (List.filter connectable l))) as [y|];
    [|reflexivity].
  unfold by_updatedAt_desc.
  destruct (updatedAt y <=? updatedAt x) eqn:Hle.
  - apply Z.leb_le in Hle. replace (updatedAt y - updatedAt x <=? 0) with true; [reflexivity|].
    symmetry. apply Z.leb_le. lia.
  - apply Z.leb_gt in Hle. replace (updatedAt y - updatedAt x <=? 0) with false; [reflexivity|].
    symmetry. apply Z.leb_gt. lia.
Qed.

Lemma latest_spec (l : list Session) (act : option string) :
  match latestRemoteSignerSession {| sessions := l; activeSessionId := act |} with
  | None => forall x, In x l -> connectable x = false
  | Some s =>
      exists before after,
        l = before ++ s :: after /\ connectable s = true
        /\ (forall x, In x before -> connectable x = true -> updatedAt x < updatedAt s)
        /\ (forall x, In x after -> connectable x = true -> updatedAt x <= updatedAt s)
  end.
Proof.
  induction l as [|x l IH]; [intros x []|].
  rewrite (latest_cons x l act act).
  destruct (connectable x) eqn:Hx.
  - destruct (latestRemoteSignerSession {| sessions := l; activeSessionId := act |})
      as [y|].
    + destruct IH as (before & after & -> & Hy & Hbefore & Hafter).
      destruct (updatedAt y <=? updatedAt x) eqn:Hle.
      * apply Z.leb_le in Hle. exists [], (before ++ y :: after).
        split; [reflexivity|]. split; [exact Hx|]. split; [intros z []|].
        intros z Hin Hz. apply in_app_iff in Hin. destruct Hin as [Hin|[<-|Hin]].
        -- specialize (Hbefore z Hin Hz). lia.
        -- exact Hle.
        -- specialize (Hafter z Hin Hz). lia.
      * apply Z.leb_gt in Hle. exists (x :: before), after.
        split; [reflexivity|]. split; [exact Hy|]. split; [|exact Hafter].
        intros z [<-|Hin] Hz; [exact Hle | now apply Hbefore].
    + exists [], l. split; [reflexivity|]. split; [exact Hx|]. split; [intros z []|].
      intros z Hin Hz. rewrite (IH z Hin) in Hz. discriminate.
  - destruct (latestRemoteSignerSession {| sessions := l; activeSessionId := act |})
      as [y|].
    + destruct IH as (before & after & -> & Hy & Hbefore & Hafter).
      exists (x :: before), after.
      split; [reflexivity|]. split; [exact Hy|]. split; [|exact Hafter].
      intros z [<-|Hin] Hz; [congruence | now apply Hbefore].
    + intros z [<-|Hin]; [exact Hx | now apply IH].
Qed.

Lemma adoptable_connectable (s : Session) :
  adoptable s = true -> connectable s = true.
Proof.
  unfold adoptable, connectable.
  destruct (status s); simpl; try discriminate.
  destruct (truthy_string (userPubkey s)); simpl; [|discriminate].
  intros ->. reflexivity.
Qed.

Lemma latest_none (snapshot : SessionSnapshot) :
  latestRemoteSignerSession snapshot = None
  <-> hasConnectableRemoteSignerSession snapshot = false.
Proof.
  destruct snapshot as [l act]. unfold hasConnectableRemoteSignerSession. simpl.
  pose proof (latest_spec l act) as H.
  destruct (latestRemoteSignerSession {| sessions := l; activeSessionId := act |}) as [s|].
  - destruct H as (before & after & -> & Hs & _). split; [discriminate|].
    intros Hex. assert (existsb connectable (before ++ s :: after) = true) as Ht.
    { apply existsb_exists. exists s. split; [|exact Hs].
      apply in_app_iff. right. now left. }
    congruence.
  - split; [|reflexivity]. intros _.
    destruct (existsb connectable l) eqn:Hex; [|reflexivity].
    apply existsb_exists in Hex. destruct Hex as (x & Hin & Hx).
    rewrite (H x Hin) in Hx. discriminate.
Qed.

(** X14: the session that the application connects to by hand is the most
    recently updated connectable one. Among the sessions of the snapshot
    that are not revoked and carry no error, latestRemoteSignerSession is
    one with the largest updatedAt, and the first of them in the order of
    the list when several share that stamp; it is null exactly when
    hasConnectableRemoteSignerSession is false. Whenever the provider has a
    candidate for adoption, a latest session exists and is at least as
    recent as that candidate. *)
Theorem latest_session_is_most_recent (snapshot : SessionSnapshot) :
  (latestRemoteSignerSession snapshot = None
   <-> hasConnectableRemoteSignerSession snapshot = false)
  /\ (forall s, latestRemoteSignerSession snapshot = Some s ->
        exists before after,
          sessions snapshot = before ++ s :: after /\ connectable s = true
          /\ (forall x, In x before -> connectable x = true -> updatedAt x < updatedAt s)
          /\ (forall x, In x after -> connectable x = true -> updatedAt x <= updatedAt s))
  /\ (forall c, candidate snapshot = Some c ->
        exists s, latestRemoteSignerSession snapshot = Some s
                  /\ updatedAt c <= updatedAt s).
Proof.
  split; [apply latest_none|]. split.
  - intros s Hs. destruct snapshot as [l act].
    pose proof (latest_spec l act) as H. rewrite Hs in H. exact H.
  - intros c Hc. unfold candidate in Hc. apply find_some in Hc.
    destruct Hc as (Hin & Had). apply adoptable_connectable in Had.
    destruct snapshot as [l act]. simpl in Hin.
    pose proof (latest_spec l act) as H.
    destruct (latestRemoteSignerSession {| sessions := l; activeSessionId := act |})
      as [s|].
    + exists s. split; [reflexivity|].
      destruct H as (before & after & -> & _ & Hbefore & Hafter).
      apply in_app_iff in Hin. destruct Hin as [Hin|[<-|Hin]].
      * specialize (Hbefore c Hin Had). lia.
      * lia.
      * now apply Hafter.
    + rewrite (H c Hin) in Had. discriminate.
Qed.

(** X15: the manual connect effect, once it is pending and the provider is
    ready with a transport and a service, either calls connectSession, and
    then for the id of latestRemoteSignerSession and nothing else, or
    clears the pending flag; it opens the connect dialog on that run only
    when the snapshot has no connectable session. With session ids that are
    not empty these are the only two outcomes: one connectSession for the
    latest connectable session, or the flag cleared and the dialog opened.
    A settled attempt that was cancelled changes nothing. *)
Theorem manual_connect_targets_latest (d : ConnectDeps) (snapshot : SessionSnapshot) :
  (forall sid, In (connectSession sid) (manual_connect_effect d snapshot) ->
     sid <> ""%string
     /\ manual_connect_effect d snapshot = [connectSession sid]
     /\ exists s, latestRemoteSignerSession snapshot = Some s /\ id s = sid)
  /\ (In (setConnectSignerOpen true) (manual_connect_effect d snapshot) ->
      hasConnectableRemoteSignerSession snapshot = false
      /\ manual_connect_effect d snapshot
         = [setPendingRemoteSignerConnect false; setConnectSignerOpen true])
  /\ (pendingRemoteSignerConnect d && nip46Ready d && nip46TransportReady d
      && nip46Service d = true ->
      ids_nonempty snapshot ->
      manual_connect_effect d snapshot
      = match latestRemoteSignerSession snapshot with
        | Some s => [connectSession (id s)]
        | None => [setPendingRemoteSignerConnect false; setConnectSignerOpen true]
        end)
  /\ (forall ok, attempt_settled ok true = []).
Proof.
  unfold manual_connect_effect.
  pose proof (latest_none snapshot) as Hnone.
  split; [|split; [|split]].
  - intros sid.
    destruct (pendingRemoteSignerConnect d); simpl; [|tauto].
    destruct (nip46Ready d); simpl; [|tauto].
    destruct (nip46TransportReady d); simpl; [|tauto].
    destruct (nip46Service d); simpl; [|tauto].
    destruct (latestRemoteSignerSession snapshot) as [s|]; simpl.
    + destruct (String.eqb (id s) "") eqn:Hid; simpl.
      * destruct (hasConnectableRemoteSignerSession snapshot); simpl;
          intros [[=]|H]; [destruct H | destruct H as [[=]|[]]].
      * intros [[= <-]|[]]. apply String.eqb_neq in Hid. eauto.
    + destruct (hasConnectableRemoteSignerSession snapshot); simpl;
        intros [[=]|H]; [destruct H | destruct H as [[=]|[]]].
  - destruct (pendingRemoteSignerConnect d); simpl; [|tauto].
    destruct (nip46Ready d); simpl; [|tauto].
    destruct (nip46TransportReady d); simpl; [|tauto].
    destruct (nip46Service d); simpl; [|tauto].
    destruct (latestRemoteSignerSession snapshot) as [s|]; simpl.
    + destruct (String.eqb (id s) ""); simpl.
      * destruct (hasConnectableRemoteSignerSession snapshot); simpl;
          [intros [[=]|[]] | auto].
      * intros [[=]|[]].
    + destruct (hasConnectableRemoteSignerSession snapshot); simpl;
        [intros [[=]|[]] | auto].
  - intros Hd Hids.
    apply andb_true_iff in Hd as (Hd & ->).
    apply andb_true_iff in Hd as (Hd & ->).
    apply andb_true_iff in Hd as (-> & ->). simpl.
    assert (forall s, latestRemoteSignerSession snapshot = Some s ->
              exists before after, sessions snapshot = before ++ s :: after /\ connectable s = true)
      as Hlatest.
    { intros s Hs. destruct snapshot as [l act]. pose proof (latest_spec l act) as H.
      rewrite Hs in H. destruct H as (before & after & H1 & H2 & _). eauto. }
    destruct (latestRemoteSignerSession snapshot) as [s|]; simpl.
    + destruct (Hlatest s eq_refl) as (before & after & Heq & _).
      assert (id s <> ""%string) as Hid.
      { unfold ids_nonempty in Hids. rewrite Heq in Hids.
        apply List.Forall_forall with (x := s) in Hids; [exact Hids|].
        apply in_app_iff. right. now left. }
      apply String.eqb_neq in Hid. rewrite Hid. reflexivity.
    + rewrite (proj1 Hnone eq_refl). reflexivity.
  - intros ok. destruct ok; reflexivity.
Qed.

Lemma manual_connect_targets_latest_example :
  pendingRemoteSignerConnect connect_ready && nip46Ready connect_ready
  && nip46TransportReady connect_ready && nip46Service connect_ready = true
  /\ ids_nonempty (two_sessions 200)
  /\ manual_connect_effect connect_ready (two_sessions 200) = [connectSession "S2"]
  /\ (id <$> candidate (two_sessions 200)) = Some "S1"%string.
Proof.
  assert (ids_nonempty (two_sessions 200)) as Hids.
  { unfold ids_nonempty. simpl. repeat constructor; discriminate. }
  split; [reflexivity|]. split; [exact Hids|]. split; [|reflexivity].
  exact (proj1 (proj2 (proj2 (manual_connect_targets_latest connect_ready (two_sessions 200))))
           eq_refl Hids).
Defined.

End ManualConnect.

(** ** The validation of the list of servers *)

Section ServerValidation.
Import App.

Variable trim : string -> string.
Variable toLowerCase : string -> string.

Lemma validate_from_step (seen : gset string) (server : ManagedServer)
  (rest : list ManagedServer) :
  (entry_ok trim server /\ (normalizedUrl trim toLowerCase server ∉ seen)
   /\ validate_from trim toLowerCase seen (server :: rest)
      = validate_from trim toLowerCase ({[normalizedUrl trim toLowerCase server]} ∪ seen) rest)
  \/ ((~ entry_ok trim server \/ normalizedUrl trim toLowerCase server ∈ seen)
      /\ exists message,
           validate_from trim toLowerCase seen (server :: rest) = Some message
           /\ In message ["Enter a server URL for every entry.";
                          "Server URLs must start with http:// or https://.";
                          "Server URLs must be unique.";
                          "Enter a server name for every entry."]%string
           /\ (message = "Server URLs must be unique."%string ->
               normalizedUrl trim toLowerCase server ∈ seen)).
Proof.
  unfold entry_ok. simpl.
  destruct (String.eqb (trimmedUrl trim server) "") eqn:Hurl; simpl.
  { apply String.eqb_eq in Hurl. right. split; [left; tauto|].
    eexists. split; [reflexivity|]. split; [simpl; tauto | discriminate]. }
  apply String.eqb_neq in Hurl.
  destruct (test_http_prefix (trimmedUrl trim server)) eqn:Hhttp; simpl.
  2:{ right. split; [left; intros (_ & H & _); discriminate|].
      eexists. split; [reflexivity|]. split; [simpl; tauto | discriminate]. }
  case_bool_decide as Hseen.
  { right. split; [now right|].
    eexists. split; [reflexivity|]. split; [simpl; tauto | auto]. }
  destruct (String.eqb (trim (or_empty (name server))) "") eqn:Hname; simpl.
  { apply String.eqb_eq in Hname. right. split; [left; tauto|].
    eexists. split; [reflexivity|]. split; [simpl; tauto | discriminate]. }
  apply String.eqb_neq in Hname. left. auto.
Qed.

Lemma validate_from_spec (servers : list ManagedServer) :
  forall seen,
    (validate_from trim toLowerCase seen servers = None <->
     List.Forall (entry_ok trim) servers
     /\ List.NoDup (map (normalizedUrl trim toLowerCase) servers)
     /\ (forall server, In server servers ->
           normalizedUrl trim toLowerCase server ∉ seen))
    /\ (forall message,
          validate_from trim toLowerCase seen servers = Some message ->
          In message ["Enter a server URL for every entry.";
                      "Server URLs must start with http:// or https://.";
                      "Server URLs must be unique.";
                      "Enter a server name for every entry."]%string
          /\ (message = "Server URLs must be unique."%string ->
              ~ (List.NoDup (map (normalizedUrl trim toLowerCase) servers)
                 /\ forall server, In server servers ->
                      normalizedUrl trim toLowerCase server ∉ seen))).
Proof.
  induction servers as [|server rest IH]; intros seen.
  - simpl. split; [|discriminate].
    split; [|reflexivity]. intros _. split; [constructor|]. split; [constructor | tauto].
  - destruct (IH ({[normalizedUrl trim toLowerCase server]} ∪ seen)) as (IHnone & IHsome).
    assert (forall k : string,
              (k ∉ {[normalizedUrl trim toLowerCase server]} ∪ seen)
              <-> k <> normalizedUrl trim toLowerCase server /\ (k ∉ seen)) as Hunion.
    { intros k. rewrite elem_of_union, elem_of_singleton. tauto. }
    destruct (validate_from_step seen server rest)
      as [(Hok & Hfresh & ->)|(Hbad & message & Heq & Hin & Hunique)].
    + split.
      * rewrite IHnone. split.
        -- intros (Hall & Hnodup & Hseen). split; [now constructor|]. split.
           ++ simpl. constructor; [|exact Hnodup].
              intros Hdup. apply in_map_iff in Hdup. destruct Hdup as (x & Hx & Hxin).
              destruct (proj1 (Hunion _) (Hseen x Hxin)) as (Hne & _).
              apply Hne. exact Hx.
           ++ intros x [<-|Hxin]; [exact Hfresh|].
              exact (proj2 (proj1 (Hunion _) (Hseen x Hxin))).
        -- intros (Hall & Hnodup & Hseen).
           inversion Hall as [|x l Hx Hrest]; subst x l.
           simpl in Hnodup. inversion Hnodup as [|k l Hk Hl]; subst k l.
           split; [exact Hrest|]. split; [exact Hl|].
           intros x Hxin. apply Hunion. split.
           ++ intros Heq. apply Hk. apply in_map_iff. now exists x.
           ++ apply Hseen. now right.
      * intros message Hm. destruct (IHsome message Hm) as (Hin & Hunique).
        split; [exact Hin|]. intros Hmsg (Hnodup & Hseen).
        apply (Hunique Hmsg).
        simpl in Hnodup. inversion Hnodup as [|k l Hk Hl]; subst k l.
        split; [exact Hl|].
        intros x Hxin. apply Hunion. split.
        -- intros Heq. apply Hk. apply in_map_iff. now exists x.
        -- apply Hseen. now right.
    + rewrite Heq. split.
      * split; [discriminate|].
        intros (Hall & _ & Hseen). exfalso.
        inversion Hall as [|x l Hx Hrest]; subst x l.
        destruct Hbad as [Hbad|Hbad]; [contradiction|].
        apply (Hseen server); [now left | exact Hbad].
      * intros m [= <-]. split; [exact Hin|].
        intros Hmsg (_ & Hseen). apply (Hseen server); [now left | now apply Hunique].
Qed.

(** X16: validateManagedServers accepts a list of servers (returns null)
    exactly when every entry has a URL that, once trimmed, is not empty and
    starts with http:// or https:// in any letter case, and a name that is
    not empty once trimmed, and no two entries have the same URL after
    trimming, removing one trailing slash and lowering the case. Otherwise
    it returns one of its four messages, and the message about unique URLs
    only for a list in which two entries have the same normalised URL. *)
Theorem validateManagedServers_accepts (servers : list ManagedServer) :
  (validateManagedServers trim toLowerCase servers = None <->
   List.Forall (entry_ok trim) servers
   /\ List.NoDup (map (normalizedUrl trim toLowerCase) servers))
  /\ (forall message,
        validateManagedServers trim toLowerCase servers = Some message ->
        In message ["Enter a server URL for every entry.";
                    "Server URLs must start with http:// or https://.";
                    "Server URLs must be unique.";
                    "Enter a server name for every entry."]%string
        /\ (message = "Server URLs must be unique."%string ->
            ~ List.NoDup (map (normalizedUrl trim toLowerCase) servers))).
Proof.
  unfold validateManagedServers.
  destruct (validate_from_spec servers ∅) as (Hnone & Hsome). split.
  - rewrite Hnone. split; [tauto|]. intros (Hall & Hnodup).
    split; [exact Hall|]. split; [exact Hnodup|].
    intros server _. apply not_elem_of_empty.
  - intros message Hm. destruct (Hsome message Hm) as (Hin & Hunique).
    split; [exact Hin|]. intros Hmsg Hnodup. apply (Hunique Hmsg).
    split; [exact Hnodup|]. intros server _. apply not_elem_of_empty.
Qed.

End ServerValidation.

Lemma validateManagedServers_accepts_example :
  let entries :=
    [{| App.url := Some "HTTPS://a.example/"%string; App.name := Some "A"%string |};
     {| App.url := Some "http://a.example"%string; App.name := Some "B"%string |}] in
  (List.Forall (App.entry_ok id) entries
   /\ List.NoDup (map (App.normalizedUrl id id) entries))
  /\ App.validateManagedServers id id
       [{| App.url := Some "https://a.example/"%string; App.name := Some "A"%string |};
        {| App.url := Some "https://a.example"%string; App.name := Some "B"%string |}]
     = Some "Server URLs must be unique."%string.
Proof.
  intros entries. split; [|vm_compute; reflexivity].
  apply (validateManagedServers_accepts id id entries).
  vm_compute. reflexivity.
Defined.

(** ** The reconnection loop attempts every eligible session *)

Section ReconnectComplete.
Import Nip46.

Lemma reconnect_session_attempts adopted now r s :
  reconnect_conditions adopted now s ->
  id s ∉ reconnectTrackerRef r ->
  in_cooldown (reconnectCooldownRef r !! id s) now = false ->
  reconnect_session adopted now r s
  = (start_attempt (id s) now r, [connectSession (id s)]).
Proof.
  intros (Hact & Hrem & Herr & Hsr) Hfree Hcd. unfold reconnect_session.
  apply is_active_true in Hact. apply truthy_string_true in Hrem.
  apply truthy_string_false in Herr. apply shouldReconnect_spec in Hsr.
  rewrite Hact, Hrem, Herr, Hsr, Hcd. simpl.
  rewrite bool_decide_eq_false_2; [reflexivity | exact Hfree].
Qed.

Lemma reconnect_sessions_complete adopted now (l : list Session) :
  forall r s,
    In s l ->
    reconnect_conditions adopted now s ->
    id s ∉ reconnectTrackerRef r ->
    in_cooldown (reconnectCooldownRef r !! id s) now = false ->
    In (connectSession (id s)) (snd (reconnect_sessions adopted now l r)).
Proof.
  induction l as [|x l IH]; intros r s Hin Hc Hfree Hcd; [destruct Hin|].
  simpl.
  destruct (reconnect_session adopted now r x) as [r1 calls1] eqn:H1.
  specialize (IH r1 s).
  destruct (reconnect_sessions adopted now l r1) as [r2 calls2].
  simpl in *. apply in_app_iff.
  destruct (reconnect_session_cases adopted now r x) as [H|(_ & _ & _ & H)];
    rewrite H in H1; injection H1 as <- <-.
  - destruct Hin as [->|Hin].
    + rewrite (reconnect_session_attempts adopted now r s Hc Hfree Hcd) in H.
      discriminate H.
    + right. now apply IH.
  - destruct (decide (id x = id s)) as [Heq|Hne].
    + left. rewrite Heq. now left.
    + right. apply IH.
      * destruct Hin as [->|Hin]; [contradiction | exact Hin].
      * exact Hc.
      * simpl. rewrite elem_of_union, elem_of_singleton. intros [Heq|Hold].
        -- now apply Hne.
        -- now apply Hfree.
      * simpl. rewrite lookup_insert_ne; [exact Hcd | exact Hne].
Qed.

(** X17: the reconnection loop leaves no eligible session out. In a run
    whose dependencies are ready, every session of the snapshot that is
    active, has a remote signer key, has no error, and is the adopted
    session or was seen within the last 60 seconds gets a connectSession
    attempt for its id in that run, provided that no attempt for the id is
    in flight and the id is not in its cooldown when the run starts. An
    adopted session is thus attempted even when it was never seen. *)
Theorem reconnect_attempts_every_eligible (d : Deps) (now : Z)
  (snapshot : SessionSnapshot) (r : Refs) (s : Session) :
  reconnect_deps_ready d = true ->
  In s (sessions snapshot) ->
  reconnect_conditions (activeSessionRef r) now s ->
  id s ∉ reconnectTrackerRef r ->
  in_cooldown (reconnectCooldownRef r !! id s) now = false ->
  In (connectSession (id s)) (snd (reconnect_effect d now snapshot r)).
Proof.
  intros Hd Hin Hc Hfree Hcd. unfold reconnect_effect. rewrite Hd. simpl.
  now apply reconnect_sessions_complete.
Qed.

Lemma reconnect_attempts_every_eligible_S2 :
  lastSeenAt (S2 200) = None
  /\ In (connectSession "S2")
       (snd (reconnect_effect all_ready 1000000 (two_sessions 200)
               (set_activeSessionRef (Some "S2"%string) initial_refs))).
Proof.
  split; [reflexivity|].
  apply (reconnect_attempts_every_eligible all_ready 1000000 (two_sessions 200)
           (set_activeSessionRef (Some "S2"%string) initial_refs) (S2 200)).
  - reflexivity.
  - simpl. right. now left.
  - unfold reconnect_conditions, is_set, is_blank. simpl.
    split; [reflexivity|]. split; [|split; [now left | now left]].
    exists "R2"%string. split; [reflexivity | discriminate].
  - simpl. apply not_elem_of_empty.
  - reflexivity.
Defined.

End ReconnectComplete.
